(** * Dominant-colour extraction of the colour-palette builder

    A shallow embedding of [rgbToHex] and [extractColorsFromImage]
    (the React component [ColorPalette]) and the properties of the
    extraction pipeline: canvas sizing, pixel sampling, quantization,
    frequency ranking and hex encoding.  The validation of hex codes and
    the handlers that fill, copy and export the palette follow.

    Integers are [Z].  The quotient [r / 20] of the quantizer is a
    rational [Q], shown to give on every byte what IEEE 754 binary64
    gives; the size of the canvas is computed in binary64 itself (module
    [Binary64]), where rounding decides the result.  [undefined] (a
    typed-array read out of range) is [None]. *)

From Stdlib Require Import ZArith QArith Qround Qabs Qminmax.
From Stdlib Require Import String Ascii List Bool Lia.
From Stdlib Require Import Uint63 Floats.
From Stdlib Require Import Permutation Sorted.
Import ListNotations.

Local Open Scope Z_scope.

(* ================================================================== *)
(** ** Host primitives used by the source *)

Module JS.

(** [Math.floor] on a finite number. *)
Definition Math_floor (x : Q) : Z := Qfloor x.

(** [Math.round]: the closest integer, a tie going towards +infinity. *)
Definition Math_round (x : Q) : Z := Qfloor (x + (1 # 2)).

Definition Math_min (x y : Z) : Z := Z.min x y.
Definition Math_max (x y : Z) : Z := Z.max x y.

(** Truncation towards zero (the IntegerPart of Web IDL). *)
Definition truncate (x : Q) : Z :=
  if Qle_bool 0 x then Qfloor x else Qceiling x.

(** Conversion of a finite number to the Web IDL type [unsigned long],
    which is what assigning to [canvas.width] and [canvas.height] does. *)
Definition toUnsignedLong (x : Q) : Z := truncate x mod 2 ^ 32.

(** One digit, lowercase, as [Number.prototype.toString] prints it. *)
Definition digitChar (d : Z) : ascii :=
  if d <? 10 then ascii_of_nat (48 + Z.to_nat d)
  else ascii_of_nat (87 + Z.to_nat d).

Fixpoint digitsOf (fuel : nat) (radix n : Z) (acc : string) : string :=
  match fuel with
  | O => acc
  | S fuel' =>
      let acc' := String (digitChar (n mod radix)) acc in
      if n / radix =? 0 then acc' else digitsOf fuel' radix (n / radix) acc'
  end.

(** [n.toString(radix)] for an integer [n]; a number has no more digits
    than bits, which bounds the recursion. *)
Definition toString (radix n : Z) : string :=
  if n <? 0
  then String "-" (digitsOf (S (Z.to_nat (Z.log2 (- n)))) radix (- n) EmptyString)
  else digitsOf (S (Z.to_nat (Z.log2 n))) radix n EmptyString.

Definition lowerChar (c : ascii) : ascii :=
  let n := nat_of_ascii c in
  if (Nat.leb 65 n && Nat.leb n 90)%bool then ascii_of_nat (n + 32) else c.

Fixpoint toLowerCase (s : string) : string :=
  match s with
  | EmptyString => EmptyString
  | String c s' => String (lowerChar c) (toLowerCase s')
  end.

(** [a < n] where [a] may be [undefined]: [undefined] converts to NaN
    and every comparison with NaN is false. *)
Definition lt (a : option Z) (n : Z) : bool :=
  match a with
  | Some v => v <? n
  | None => false
  end.

Definition isUndefined (a : option Z) : bool :=
  match a with
  | Some _ => false
  | None => true
  end.

End JS.

(* ================================================================== *)
(** ** [rgbToHex] *)

Definition clampChannel (x : Q) : Z :=
  JS.Math_max 0 (JS.Math_min 255 (JS.Math_floor x)).

(** The callback of [.map] inside [rgbToHex]. *)
Definition channelHex (x : Z) : string :=
  let hex := JS.toLowerCase (JS.toString 16 x) in
  if (String.length hex =? 1)%nat then String "0" hex else hex.

Definition rgbToHex (r g b : Q) : string :=
  let clampedR := clampChannel r in
  let clampedG := clampChannel g in
  let clampedB := clampChannel b in
  String "#" (String.concat EmptyString (map channelHex [clampedR; clampedG; clampedB])).

(* ================================================================== *)
(** ** The colour frequency map *)

Module Bucket.
Record t : Type := mk { r : Z; g : Z; b : Z; count : Z }.
End Bucket.

(** A JavaScript [Map] iterates in insertion order, and the ranking
    depends on that order: the map is an association list, oldest key
    first. *)
Definition ColorMap : Type := list (string * Bucket.t).

Module ColorMapOps.

Definition has (m : ColorMap) (k : string) : bool :=
  existsb (fun e => String.eqb (fst e) k) m.

Fixpoint get (m : ColorMap) (k : string) : option Bucket.t :=
  match m with
  | [] => None
  | (k', v) :: m' => if String.eqb k' k then Some v else get m' k
  end.

(** [set] keeps the position of a key that is already present and
    appends a new key. *)
Fixpoint set (m : ColorMap) (k : string) (v : Bucket.t) : ColorMap :=
  match m with
  | [] => [(k, v)]
  | (k', v') :: m' =>
      if String.eqb k' k then (k', v) :: m' else (k', v') :: set m' k v
  end.

(** [existing.count += 1] on the object the map holds under [k]. *)
Fixpoint incrementCount (m : ColorMap) (k : string) : ColorMap :=
  match m with
  | [] => []
  | (k', v) :: m' =>
      if String.eqb k' k
      then (k', Bucket.mk (Bucket.r v) (Bucket.g v) (Bucket.b v) (Bucket.count v + 1)) :: m'
      else (k', v) :: incrementCount m' k
  end.

Definition values (m : ColorMap) : list Bucket.t := map snd m.

End ColorMapOps.

(* ================================================================== *)
(** ** [extractColorsFromImage] *)

Definition maxSize : Z := 300.

(** [Math.round(x / 20) * 20]. *)
Definition grouped (x : Z) : Z := JS.Math_round (inject_Z x / 20) * 20.

(** The key template: the three grouped channels joined by dashes. *)
Definition colorKey (groupedR groupedG groupedB : Z) : string :=
  (JS.toString 10 groupedR ++ "-" ++ JS.toString 10 groupedG ++ "-"
     ++ JS.toString 10 groupedB)%string.

(** Whether the [continue] of the loop body is taken at byte index [i]. *)
Definition skipped (pixels : list Z) (i : nat) : bool :=
  let r := nth_error pixels i in
  let g := nth_error pixels (i + 1) in
  let b := nth_error pixels (i + 2) in
  let alpha := nth_error pixels (i + 3) in
  JS.lt alpha 128 || JS.isUndefined r || JS.isUndefined g || JS.isUndefined b.

(** One iteration of the sampling loop at byte index [i]. *)
Definition samplePixel (pixels : list Z) (i : nat) (colorMap : ColorMap) : ColorMap :=
  if skipped pixels i then colorMap
  else
    match nth_error pixels i, nth_error pixels (i + 1), nth_error pixels (i + 2) with
    | Some r, Some g, Some b =>
        let groupedR := grouped r in
        let groupedG := grouped g in
        let groupedB := grouped b in
        let key := colorKey groupedR groupedG groupedB in
        if ColorMapOps.has colorMap key
        then ColorMapOps.incrementCount colorMap key
        else ColorMapOps.set colorMap key (Bucket.mk groupedR groupedG groupedB 1)
    | _, _, _ => colorMap
    end.

(** [for (let i = start; i < len; i += 16) state = body i state]. *)
Fixpoint forLoop {S : Type} (fuel : nat) (len i : nat) (body : nat -> S -> S) (s : S) : S :=
  match fuel with
  | O => s
  | Datatypes.S fuel' =>
      if (i <? len)%nat then forLoop fuel' len (i + 16) body (body i s) else s
  end.

(** The loop needs at most one iteration per byte of the buffer. *)
Definition scanPixels (pixels : list Z) : ColorMap :=
  forLoop (length pixels) (length pixels) 0 (samplePixel pixels) [].

(** The byte indices at which the loop body runs, in order. *)
Definition sampledIndices (len : nat) : list nat :=
  forLoop len len 0 (fun i visited => visited ++ [i]) [].

(** The comparator handed to [sort]. *)
Definition byCountDesc (a b : Bucket.t) : Z := Bucket.count b - Bucket.count a.

(** [Array.prototype.sort] is a stable sort.  For a comparator that is
    consistent, as [byCountDesc] is, every stable sort returns the same
    array; insertion from the right is the simplest of them. *)
Fixpoint insertSorted {A : Type} (cmp : A -> A -> Z) (x : A) (l : list A) : list A :=
  match l with
  | [] => [x]
  | y :: l' => if cmp x y <=? 0 then x :: y :: l' else y :: insertSorted cmp x l'
  end.

Fixpoint sort {A : Type} (cmp : A -> A -> Z) (l : list A) : list A :=
  match l with
  | [] => []
  | x :: l' => insertSorted cmp x (sort cmp l')
  end.

Definition slice5 {A : Type} (l : list A) : list A := firstn 5 l.

(** [sort] followed by [slice(0, 5)]. *)
Definition topBuckets (buckets : list Bucket.t) : list Bucket.t :=
  slice5 (sort byCountDesc buckets).

Definition bucketHex (e : Bucket.t) : string :=
  rgbToHex (inject_Z (Bucket.r e)) (inject_Z (Bucket.g e)) (inject_Z (Bucket.b e)).

Definition hasLength7 (color : string) : bool := (String.length color =? 7)%nat.

(** The array handed to [setExtractedColors], from the frequency map. *)
Definition encodeTop (colorMap : ColorMap) : list string :=
  filter hasLength7 (map bucketHex (topBuckets (ColorMapOps.values colorMap))).

(** The array handed to [setExtractedColors], from the pixel data. *)
Definition sortedColors (pixels : list Z) : list string :=
  encodeTop (scanPixels pixels).

(* ================================================================== *)
(** ** The same arithmetic in binary64

    A JavaScript number is an IEEE 754 binary64.  The definitions above
    divide and multiply exactly; the ones here round as the machine does,
    so that the two can be compared on concrete inputs. *)

Module Binary64.

(** An integer below 2^53 as a number. *)
Definition ofZ (x : Z) : float := PrimFloat.of_uint63 (Uint63.of_Z x).

(** The exact value of a finite number. *)
Definition exact (f : float) : option Q :=
  match Prim2SF f with
  | S754_zero _ => Some 0%Q
  | S754_finite s m e =>
      let n := if s then Z.neg m else Z.pos m in
      Some (if 0 <=? e then inject_Z (n * 2 ^ e) else n # (2 ^ Z.to_pos (- e)))
  | S754_infinity _ => None
  | S754_nan => None
  end.

(** [Math.min] on two numbers that are not NaN. *)
Definition Math_min (x y : float) : float := if PrimFloat.ltb y x then y else x.

(** [Math.round(x / 20) * 20]. *)
Definition grouped64 (x : Z) : option Z :=
  option_map (fun q => JS.Math_round q * 20) (exact (ofZ x / ofZ 20)).

(** Conversion of a number to the Web IDL type [unsigned long], which is
    what assigning to [canvas.width] and [canvas.height] does: NaN and the
    infinities become 0, a finite number is truncated and reduced modulo
    2^32. *)
Definition toUnsignedLong (f : float) : Z :=
  match exact f with
  | Some q => JS.toUnsignedLong q
  | None => 0
  end.

End Binary64.

(** [Math.min(maxSize / imageElement.width, maxSize / imageElement.height)];
    the width and the height of an image are of type [unsigned long]. *)
Definition ratio (width height : Z) : float :=
  Binary64.Math_min (Binary64.ofZ maxSize / Binary64.ofZ width)
                    (Binary64.ofZ maxSize / Binary64.ofZ height).

(** [canvas.width = imageElement.width * ratio], and the same for the
    height. *)
Definition canvasWidth (width height : Z) : Z :=
  Binary64.toUnsignedLong (Binary64.ofZ width * ratio width height).

Definition canvasHeight (width height : Z) : Z :=
  Binary64.toUnsignedLong (Binary64.ofZ height * ratio width height).

(* ================================================================== *)
(** ** What the specification says, in its own words *)

Module Spec.

Definition topK : nat := 5.

(** A byte of an RGBA8 buffer. *)
Definition isByte (x : Z) : Prop := 0 <= x <= 255.

(** A valid buffer for the declared dimensions: four bytes per pixel. *)
Definition validRGBA (pixels : list Z) (width height : Z) : Prop :=
  0 < width /\ 0 < height /\
  Z.of_nat (length pixels) = 4 * width * height /\
  Forall isByte pixels.

Definition isLowerHexDigit (c : ascii) : bool :=
  let n := nat_of_ascii c in
  ((Nat.leb 48 n && Nat.leb n 57) || (Nat.leb 97 n && Nat.leb n 102))%bool.

Fixpoint allLowerHex (s : string) : bool :=
  match s with
  | EmptyString => true
  | String c s' => isLowerHexDigit c && allLowerHex s'
  end.

(** The pattern [^#[0-9a-f]{6}$]. *)
Definition isHexColor (s : string) : bool :=
  match s with
  | String c rest =>
      Ascii.eqb c "#" && (String.length rest =? 6)%nat && allLowerHex rest
  | EmptyString => false
  end.

Definition hexDigit (d : Z) : ascii :=
  match String.get (Z.to_nat d) "0123456789abcdef" with
  | Some c => c
  | None => "?"%char
  end.

(** A channel as exactly two hex digits, zero-padded. *)
Definition hexPair (v : Z) : string :=
  String (hexDigit (v / 16)) (String (hexDigit (v mod 16)) EmptyString).

(** Clamp to [0, 255]. *)
Definition clamp (x : Q) : Q := Qmax 0 (Qmin 255 x).

(** Clamp, truncate to an integer, format as [#rrggbb]. *)
Definition encode (r g b : Q) : string :=
  String "#" (hexPair (JS.truncate (clamp r)) ++ hexPair (JS.truncate (clamp g))
                ++ hexPair (JS.truncate (clamp b))).

(** [z] is [x] rounded to the nearest integer, a tie going away from
    zero. *)
Definition roundsHalfAwayFromZero (x : Q) (z : Z) : Prop :=
  (Qabs (x - inject_Z z) <= 1 # 2)%Q /\
  (Qabs (x - inject_Z z) == 1 # 2 -> Qabs x < Qabs (inject_Z z))%Q.

(** A canvas side is never less than 1. *)
Definition atLeastOne (side : Z) : Z := Z.max 1 side.


(** The values the quantizer can produce from a byte. *)
Definition isQuantized (v : Z) : Prop := 0 <= v <= 260 /\ v mod 20 = 0.

End Spec.

(* ================================================================== *)
(** ** Auxiliary definitions used in the statements *)

(** The order the ranker establishes: the earlier bucket has at least the
    count of the later one. *)
Definition countGe (a b : Bucket.t) : Prop := Bucket.count b <= Bucket.count a.

Definition hasCount (c : Z) (e : Bucket.t) : bool := Bucket.count e =? c.

(** A number that is zero, or positive, finite and below 2^k. *)
Definition belowMag (k : Z) (x : spec_float) : Prop :=
  match x with
  | S754_zero _ => True
  | S754_finite false m e => Z.pos (digits2_pos m) + e <= k
  | _ => False
  end.

(** The indices [i, i + 16, i + 32, ...] below [len]. *)
Definition strideIndices (len i : nat) : list nat :=
  map (fun k => (i + 16 * k)%nat) (seq 0 ((len - i + 15) / 16)).

(** The ceiling of [n / 4]. *)
Definition ceilQuarter (n : nat) : nat :=
  Z.to_nat (Qceiling (inject_Z (Z.of_nat n) / 4)).

Definition bucketTriple (e : Bucket.t) : Z * Z * Z :=
  (Bucket.r e, Bucket.g e, Bucket.b e).

Definition tripleKey (t : Z * Z * Z) : string :=
  let '(r, g, b) := t in colorKey r g b.

Definition tripleHex (t : Z * Z * Z) : string :=
  let '(r, g, b) := t in rgbToHex (inject_Z r) (inject_Z g) (inject_Z b).

Definition quantizedTriple (t : Z * Z * Z) : Prop :=
  let '(r, g, b) := t in
  Spec.isQuantized r /\ Spec.isQuantized g /\ Spec.isQuantized b.

(** Every bucket sits under the key of its own triple, and the triple is
    one the quantizer produces. *)
Definition bucketOk (e : string * Bucket.t) : Prop :=
  fst e = tripleKey (bucketTriple (snd e)) /\ quantizedTriple (bucketTriple (snd e)).

Definition mapOk (m : ColorMap) : Prop :=
  NoDup (map fst m) /\ Forall bucketOk m.

(** [n] pixels, each (100, 150, 200, 255). *)
Definition solidBuffer (n : nat) : list Z := concat (repeat [100; 150; 200; 255] n).

Definition solidKey : string := colorKey 100 160 200.

Definition solidMap (c : Z) : ColorMap := [(solidKey, Bucket.mk 100 160 200 c)].

(* ================================================================== *)
(** ** The palette: [isValidHex], [normalizeHex] and the handlers

    A slot of the palette is a JavaScript value that is a string or
    [undefined] ([None]); an array element that was never written reads as
    [undefined].  An index is a natural number, as the table rows and
    [findIndex] supply it. *)

Definition isHexDigit (c : ascii) : bool :=
  let n := nat_of_ascii c in
  ((Nat.leb 48 n && Nat.leb n 57) || (Nat.leb 65 n && Nat.leb n 70)
   || (Nat.leb 97 n && Nat.leb n 102))%bool.

Fixpoint allHexDigits (s : string) : bool :=
  match s with
  | EmptyString => true
  | String c s' => isHexDigit c && allHexDigits s'
  end.

(** The test of the regular expression
    [^#([A-Fa-f0-9]{6}|[A-Fa-f0-9]{3})$]. *)
Definition hexPattern (s : string) : bool :=
  match s with
  | String c rest =>
      Ascii.eqb c "#"
      && ((String.length rest =? 6)%nat || (String.length rest =? 3)%nat)
      && allHexDigits rest
  | EmptyString => false
  end.

(** [color.startsWith("#") ? color : `#${color}`]. *)
Definition withHash (color : string) : string :=
  if String.prefix "#" color then color else String "#" color.

Definition isValidHex (color : string) : bool :=
  let hex := withHash color in
  hexPattern hex.

(** [!c] for a value that is a string or [undefined]. *)
Definition isFalsy (c : option string) : bool :=
  match c with
  | None => true
  | Some s => String.eqb s EmptyString
  end.

Definition normalizeHex (color : option string) : string :=
  match color with
  | None => EmptyString
  | Some text =>
      if isFalsy color then EmptyString
      else
        let hex := withHash text in
        if isValidHex hex then hex else EmptyString
  end.

Definition Colors : Type := list (option string).

(** [array[index] = value]: an index past the end extends the array, the
    elements in between reading as [undefined]. *)
Definition arrayStore (array : Colors) (index : nat) (value : string) : Colors :=
  if (index <? length array)%nat
  then firstn index array ++ Some value :: skipn (S index) array
  else array ++ repeat None (index - length array) ++ [Some value].

(** [array.findIndex(p)], with [None] for -1. *)
Fixpoint findIndex {A : Type} (p : A -> bool) (array : list A) : option nat :=
  match array with
  | [] => None
  | x :: rest => if p x then Some O else option_map S (findIndex p rest)
  end.

(** What a handler does besides returning: the value it passes to
    [setColors], the title of the toast it shows and the text it writes to
    the clipboard, each if any. *)
Record Effects : Type := mkEffects {
  setColors : option Colors;
  toastTitle : option string;
  clipboard : option string
}.

(** [Array(10).fill("")]. *)
Definition emptyPalette : Colors := repeat (Some EmptyString) 10.

Definition handleColorChange (colors : Colors) (index : nat) (value : string) : Effects :=
  let newColors := arrayStore colors index value in
  mkEffects (Some newColors) None None.

Definition addColorFromPicker (colors : Colors) (pickerColor : string) (index : nat) : Effects :=
  let newColors := arrayStore colors index pickerColor in
  mkEffects (Some newColors) (Some "Color added"%string) None.

Definition addExtractedColor (colors : Colors) (color : string) (index : option nat) : Effects :=
  let targetIndex :=
    match index with
    | Some i => Some i
    | None => findIndex isFalsy colors
    end in
  match targetIndex with
  | Some target =>
      mkEffects (Some (arrayStore colors target color)) (Some "Color added"%string) None
  | None => mkEffects None (Some "Palette full"%string) None
  end.

Definition copyColor (color : option string) : Effects :=
  let normalizedColor := normalizeHex color in
  if String.eqb normalizedColor EmptyString
  then mkEffects None None None
  else mkEffects None (Some "Copied!"%string) (Some normalizedColor).

(** The [colors] field of the exported palette. *)
Definition exportPalette (colors : Colors) : list string :=
  let validColors :=
    filter (fun color => negb (String.eqb (normalizeHex color) EmptyString)) colors in
  map (fun color => normalizeHex color) validColors.

Definition clearAll : Effects :=
  mkEffects (Some emptyPalette) (Some "Palette cleared"%string) None.

(** The handler of the button "Add to Next". *)
Definition addToNext (colors : Colors) (pickerColor : string) : Effects :=
  match findIndex isFalsy colors with
  | Some emptyIndex => addColorFromPicker colors pickerColor emptyIndex
  | None => mkEffects None (Some "Palette full"%string) None
  end.

(** The state after a handler has run: the last value passed to
    [setColors], or the state as it was. *)
Definition commit (colors : Colors) (effects : Effects) : Colors :=
  match setColors effects with
  | Some newColors => newColors
  | None => colors
  end.

(** The handler of the button "Add All Colors":
    [extractedColors.forEach((color) => addExtractedColor(color))].  Every
    call reads the [colors] of the render the handler belongs to. *)
Definition addAllColors (colors : Colors) (extractedColors : list string) : list Effects :=
  map (fun color => addExtractedColor colors color None) extractedColors.

(** The state after several calls in one handler: the calls to [setColors]
    take effect in order. *)
Definition commitAll (colors : Colors) (calls : list Effects) : Colors :=
  fold_left commit calls colors.

(** The button "Add" pressed for one colour after the other: every press
    is handled in the render that follows the press before it. *)
Definition addOneByOne (colors : Colors) (extractedColors : list string) : Colors :=
  fold_left (fun state color => commit state (addExtractedColor state color None))
            extractedColors colors.

(** One action of the user on the page.  The rows of the table are drawn
    from [colors], so a row index is below its length. *)
Inductive uiStep (colors : Colors) : Colors -> Prop :=
| stepChange (index : nat) (value : string) :
    (index < length colors)%nat ->
    uiStep colors (commit colors (handleColorChange colors index value))
| stepPickRow (index : nat) (pickerColor : string) :
    (index < length colors)%nat ->
    uiStep colors (commit colors (addColorFromPicker colors pickerColor index))
| stepAddToNext (pickerColor : string) :
    uiStep colors (commit colors (addToNext colors pickerColor))
| stepAddExtracted (color : string) :
    uiStep colors (commit colors (addExtractedColor colors color None))
| stepAddAll (extractedColors : list string) :
    uiStep colors (commitAll colors (addAllColors colors extractedColors))
| stepClear :
    uiStep colors (commit colors clearAll).

(** The palettes the page can show. *)
Inductive reachable : Colors -> Prop :=
| reachInitial : reachable emptyPalette
| reachStep (colors colors' : Colors) :
    reachable colors -> uiStep colors colors' -> reachable colors'.

(* ================================================================== *)
(** ** Auxiliary definitions for the frequency map *)

(** The grouped triple of the pixel at byte index [i], if its three colour
    bytes are there. *)
Definition groupAt (pixels : list Z) (i : nat) : option (Z * Z * Z) :=
  match nth_error pixels i, nth_error pixels (i + 1), nth_error pixels (i + 2) with
  | Some r, Some g, Some b => Some (grouped r, grouped g, grouped b)
  | _, _, _ => None
  end.

Definition tripleEqb (s t : Z * Z * Z) : bool :=
  let '(r1, g1, b1) := s in
  let '(r2, g2, b2) := t in
  (r1 =? r2) && (g1 =? g2) && (b1 =? b2).

(** The sampled pixel at [i] is counted, and in the group [t]. *)
Definition countedIn (pixels : list Z) (t : Z * Z * Z) (i : nat) : bool :=
  negb (skipped pixels i)
  && match groupAt pixels i with
     | Some s => tripleEqb s t
     | None => false
     end.

(** The number of sampled pixels that are counted in the group [t]. *)
Definition frequency (pixels : list Z) (t : Z * Z * Z) : nat :=
  length (filter (countedIn pixels t) (sampledIndices (length pixels))).

(** The number of sampled pixels that are not skipped. *)
Definition survivors (pixels : list Z) : nat :=
  length (filter (fun i => negb (skipped pixels i)) (sampledIndices (length pixels))).

Definition totalCount (m : ColorMap) : Z :=
  fold_right (fun e acc => Bucket.count (snd e) + acc) 0 m.

Definition bucketOf (t : Z * Z * Z) (n : nat) : option Bucket.t :=
  match n with
  | O => None
  | S _ => let '(r, g, b) := t in Some (Bucket.mk r g b (Z.of_nat n))
  end.

Fixpoint noDash (s : string) : bool :=
  match s with
  | EmptyString => true
  | String c s' => negb (Ascii.eqb c "-") && noDash s'
  end.

(* ================================================================== *)
(** ** Finite case analysis over bytes *)

Lemma forall_below (P : Z -> bool) (n : nat) :
  forallb P (map Z.of_nat (seq 0 n)) = true ->
  forall x, 0 <= x < Z.of_nat n -> P x = true.
Proof.
  intros Hall x Hx.
  rewrite forallb_forall in Hall.
  apply Hall.
  rewrite <- (Z2Nat.id x) by lia.
  apply in_map, in_seq. lia.
Qed.

Lemma forall_bytes (P : Z -> bool) :
  forallb P (map Z.of_nat (seq 0 256)) = true ->
  forall x, 0 <= x <= 255 -> P x = true.
Proof.
  intros Hall x Hx. apply (forall_below P 256 Hall). lia.
Qed.

(* ================================================================== *)
(** ** Exact arithmetic against binary64 *)

(** On every byte the quantizer computes in binary64 what it computes in
    exact arithmetic: no quotient [x / 20] is rounded across a half. *)
Lemma grouped64_exact (x : Z) :
  0 <= x <= 255 -> Binary64.grouped64 x = Some (grouped x).
Proof.
  intros Hx.
  assert (H : (match Binary64.grouped64 x with
               | Some v => v =? grouped x
               | None => false
               end) = true).
  { revert x Hx.
    apply (forall_bytes (fun x => match Binary64.grouped64 x with
                                  | Some v => v =? grouped x
                                  | None => false
                                  end)).
    vm_compute. reflexivity. }
  destruct (Binary64.grouped64 x) as [v |]; [| discriminate].
  apply Z.eqb_eq in H. now subst.
Qed.

(* ================================================================== *)
(** ** The encoder *)

Lemma clampChannel_range (x : Q) : 0 <= clampChannel x <= 255.
Proof. unfold clampChannel, JS.Math_max, JS.Math_min. lia. Qed.

Lemma channelHex_hexPair (x : Z) :
  0 <= x <= 255 -> channelHex x = Spec.hexPair x.
Proof.
  intros Hx.
  apply String.eqb_eq.
  revert x Hx.
  apply (forall_bytes (fun x => String.eqb (channelHex x) (Spec.hexPair x))).
  vm_compute. reflexivity.
Qed.

Lemma hexPair_lowerHex (x : Z) :
  0 <= x <= 255 -> Spec.allLowerHex (Spec.hexPair x) = true.
Proof.
  revert x.
  apply (forall_bytes (fun x => Spec.allLowerHex (Spec.hexPair x))).
  vm_compute. reflexivity.
Qed.

Lemma rgbToHex_hexPairs (r g b : Q) :
  rgbToHex r g b =
  String "#" (Spec.hexPair (clampChannel r) ++ Spec.hexPair (clampChannel g)
                ++ Spec.hexPair (clampChannel b)).
Proof.
  unfold rgbToHex. cbn [map String.concat].
  rewrite !channelHex_hexPair by apply clampChannel_range.
  reflexivity.
Qed.

Lemma rgbToHex_length (r g b : Q) : String.length (rgbToHex r g b) = 7%nat.
Proof. rewrite rgbToHex_hexPairs. reflexivity. Qed.

Lemma allLowerHex_app (s t : string) :
  Spec.allLowerHex (s ++ t) = (Spec.allLowerHex s && Spec.allLowerHex t)%bool.
Proof.
  induction s as [| c s IH]; cbn [append Spec.allLowerHex].
  - reflexivity.
  - rewrite IH. apply andb_assoc.
Qed.

Lemma rgbToHex_isHexColor (r g b : Q) : Spec.isHexColor (rgbToHex r g b) = true.
Proof.
  rewrite rgbToHex_hexPairs.
  unfold Spec.isHexColor.
  rewrite !allLowerHex_app, !hexPair_lowerHex by apply clampChannel_range.
  reflexivity.
Qed.

Lemma truncate_comp (x y : Q) : (x == y)%Q -> JS.truncate x = JS.truncate y.
Proof.
  intros E. unfold JS.truncate.
  assert (Hb : Qle_bool 0 x = Qle_bool 0 y).
  { destruct (Qle_bool 0 x) eqn:Hx, (Qle_bool 0 y) eqn:Hy; try reflexivity.
    - apply Qle_bool_iff in Hx. rewrite E in Hx. apply Qle_bool_iff in Hx. congruence.
    - apply Qle_bool_iff in Hy. rewrite <- E in Hy. apply Qle_bool_iff in Hy. congruence. }
  rewrite Hb, (Qfloor_comp _ _ E), (Qceiling_comp _ _ E). reflexivity.
Qed.

Lemma truncate_inject_Z (n : Z) : JS.truncate (inject_Z n) = n.
Proof.
  unfold JS.truncate. rewrite Qfloor_Z, Qceiling_Z. destruct (Qle_bool 0 (inject_Z n)); reflexivity.
Qed.

(** Clamping and then truncating is flooring and then clamping. *)
Lemma truncate_clamp (x : Q) : JS.truncate (Spec.clamp x) = clampChannel x.
Proof.
  unfold Spec.clamp, clampChannel, JS.Math_max, JS.Math_min, JS.Math_floor.
  destruct (Q.min_spec 255 x) as [[Hlt Hmin] | [Hle Hmin]].
  - (* 255 < x *)
    assert (H255 : 255 <= Qfloor x).
    { change 255 with (Qfloor (inject_Z 255)) at 1.
      rewrite Qfloor_Z. rewrite <- (Qfloor_Z 255).
      apply Qfloor_resp_le, Qlt_le_weak, Hlt. }
    rewrite (truncate_comp (Qmax 0 (Qmin 255 x)) (inject_Z 255)).
    + rewrite truncate_inject_Z. lia.
    + rewrite Hmin. apply Q.max_r. discriminate.
  - (* x <= 255 *)
    assert (H255 : Qfloor x <= 255).
    { rewrite <- (Qfloor_Z 255). apply Qfloor_resp_le, Hle. }
    destruct (Q.max_spec 0 (Qmin 255 x)) as [[Hlt Hmax] | [Hle0 Hmax]].
    + (* 0 < x *)
      rewrite (truncate_comp _ x) by (rewrite Hmax; exact Hmin).
      rewrite Hmin in Hlt.
      unfold JS.truncate.
      assert (Hb : Qle_bool 0 x = true) by (apply Qle_bool_iff, Qlt_le_weak, Hlt).
      rewrite Hb.
      assert (0 <= Qfloor x).
      { rewrite <- (Qfloor_Z 0). apply Qfloor_resp_le, Qlt_le_weak, Hlt. }
      lia.
    + (* x <= 0 *)
      rewrite (truncate_comp _ (inject_Z 0)) by exact Hmax.
      rewrite truncate_inject_Z.
      rewrite Hmin in Hle0.
      assert (Qfloor x <= 0).
      { rewrite <- (Qfloor_Z 0). apply Qfloor_resp_le, Hle0. }
      lia.
Qed.

(** C4.  For every triple of channel values, in range or not, [rgbToHex]
    returns the channels clamped to [0, 255] and truncated to integers,
    written as a [#] followed by three zero-padded pairs of lowercase hex
    digits: seven characters in all. *)
Theorem rgbToHex_clamps_and_formats (r g b : Q) :
  rgbToHex r g b = Spec.encode r g b /\
  String.length (rgbToHex r g b) = 7%nat /\
  Spec.isHexColor (rgbToHex r g b) = true.
Proof.
  split; [| split].
  - unfold Spec.encode. rewrite !truncate_clamp. apply rgbToHex_hexPairs.
  - apply rgbToHex_length.
  - apply rgbToHex_isHexColor.
Qed.

(* ================================================================== *)
(** ** The ranker *)

Section StableSort.

Context {A : Type} (cmp : A -> A -> Z).

Lemma insertSorted_perm (x : A) (l : list A) :
  Permutation (insertSorted cmp x l) (x :: l).
Proof.
  induction l as [| y l IH]; cbn [insertSorted].
  - apply Permutation_refl.
  - destruct (cmp x y <=? 0).
    + apply Permutation_refl.
    + rewrite IH. apply perm_swap.
Qed.

Lemma sort_perm (l : list A) : Permutation (sort cmp l) l.
Proof.
  induction l as [| x l IH]; cbn [sort].
  - apply perm_nil.
  - rewrite insertSorted_perm. apply perm_skip, IH.
Qed.

Lemma sort_length (l : list A) : length (sort cmp l) = length l.
Proof. apply Permutation_length, sort_perm. Qed.

(** An element is only moved past elements the comparator puts strictly
    before it, so a predicate that is false on all of those sees the
    list unchanged. *)
Lemma insertSorted_filter (p : A -> bool) (x : A) (l : list A) :
  (forall y, p x = true -> p y = true -> cmp x y <= 0) ->
  filter p (insertSorted cmp x l) = filter p (x :: l).
Proof.
  intros Htie.
  induction l as [| y l IH]; cbn [insertSorted].
  - reflexivity.
  - destruct (cmp x y <=? 0) eqn:E.
    + reflexivity.
    + cbn [filter] in *. rewrite IH.
      destruct (p x) eqn:Px, (p y) eqn:Py; try reflexivity.
      apply Z.leb_gt in E. specialize (Htie y eq_refl Py). lia.
Qed.

End StableSort.

Lemma insertSorted_sorted (x : Bucket.t) (l : list Bucket.t) :
  StronglySorted countGe l -> StronglySorted countGe (insertSorted byCountDesc x l).
Proof.
  induction 1 as [| y l Hl IH Hy]; cbn [insertSorted].
  - repeat constructor.
  - destruct (byCountDesc x y <=? 0) eqn:E.
    + apply Z.leb_le in E. unfold byCountDesc in E.
      constructor; [constructor; assumption |].
      constructor; [unfold countGe; lia |].
      eapply Forall_impl; [| exact Hy].
      unfold countGe. intros z Hz. lia.
    + apply Z.leb_gt in E. unfold byCountDesc in E.
      constructor; [exact IH |].
      eapply Permutation_Forall; [symmetry; apply insertSorted_perm |].
      constructor; [unfold countGe; lia | exact Hy].
Qed.

Lemma sort_sorted (l : list Bucket.t) : StronglySorted countGe (sort byCountDesc l).
Proof.
  induction l as [| x l IH]; cbn [sort].
  - constructor.
  - apply insertSorted_sorted, IH.
Qed.

Lemma sort_stable (c : Z) (l : list Bucket.t) :
  filter (hasCount c) (sort byCountDesc l) = filter (hasCount c) l.
Proof.
  induction l as [| x l IH]; cbn [sort].
  - reflexivity.
  - rewrite insertSorted_filter.
    + cbn [filter]. rewrite IH. reflexivity.
    + unfold hasCount, byCountDesc. intros y Hx Hy.
      apply Z.eqb_eq in Hx, Hy. lia.
Qed.

Lemma StronglySorted_firstn {A : Type} (R : A -> A -> Prop) (n : nat) (l : list A) :
  StronglySorted R l -> StronglySorted R (firstn n l).
Proof.
  intros Hl. revert n.
  induction Hl as [| x l Hl IH Hx]; intros [| n]; cbn [firstn]; try constructor.
  - apply IH.
  - rewrite Forall_forall in *. intros y Hy. apply Hx.
    rewrite <- (firstn_skipn n l). apply in_or_app. left. exact Hy.
Qed.

Lemma StronglySorted_nth {A : Type} (R : A -> A -> Prop) (l : list A) :
  StronglySorted R l ->
  forall i j x y, (i < j)%nat ->
    nth_error l i = Some x -> nth_error l j = Some y -> R x y.
Proof.
  induction 1 as [| a l Hl IH Ha]; intros i j x y Hij Hi Hj.
  - destruct i; discriminate.
  - destruct j as [| j]; [lia |].
    cbn [nth_error] in Hj.
    destruct i as [| i]; cbn [nth_error] in Hi.
    + injection Hi as <-.
      rewrite Forall_forall in Ha. apply Ha.
      eapply nth_error_In, Hj.
    + apply (IH i j); [lia | assumption | assumption].
Qed.

Lemma topBuckets_sorted (buckets : list Bucket.t) :
  StronglySorted countGe (topBuckets buckets).
Proof. apply StronglySorted_firstn, sort_sorted. Qed.

(** In the ranking a bucket never comes after one with a strictly lower
    count. *)
Lemma topBuckets_dominance (buckets : list Bucket.t) (i j : nat) (x y : Bucket.t) :
  nth_error (topBuckets buckets) i = Some x ->
  nth_error (topBuckets buckets) j = Some y ->
  Bucket.count y < Bucket.count x ->
  (i < j)%nat.
Proof.
  intros Hi Hj Hlt.
  destruct (Nat.lt_trichotomy i j) as [Hij | [Hij | Hij]].
  - exact Hij.
  - subst j. rewrite Hi in Hj. injection Hj as <-. lia.
  - pose proof (StronglySorted_nth _ _ (topBuckets_sorted buckets) j i y x Hij Hj Hi) as Hge.
    unfold countGe in Hge. lia.
Qed.

(** The first bucket of the ranking has the highest count of all. *)
Lemma topBuckets_head (buckets : list Bucket.t) :
  buckets <> [] ->
  exists top, hd_error (topBuckets buckets) = Some top /\
    forall e, In e buckets -> Bucket.count e <= Bucket.count top.
Proof.
  intros Hne.
  pose proof (sort_perm byCountDesc buckets) as Hperm.
  pose proof (sort_sorted buckets) as Hsorted.
  unfold topBuckets, slice5.
  destruct (sort byCountDesc buckets) as [| top rest].
  - apply Permutation_nil in Hperm. contradiction.
  - exists top. split; [reflexivity |].
    intros e He.
    apply (Permutation_in _ (Permutation_sym Hperm)) in He.
    inversion Hsorted as [| ? ? _ Htop]; subst.
    destruct He as [<- | He]; [lia |].
    rewrite Forall_forall in Htop. apply (Htop e He).
Qed.

(** The scan only ever appends keys to the map: the order of the buckets
    is the order in which they were created. *)
Lemma incrementCount_keys (m : ColorMap) (k : string) :
  map fst (ColorMapOps.incrementCount m k) = map fst m.
Proof.
  induction m as [| [k' v] m IH]; cbn [ColorMapOps.incrementCount map fst].
  - reflexivity.
  - destruct (String.eqb k' k); cbn [map fst]; [reflexivity | now rewrite IH].
Qed.

Lemma set_fresh (m : ColorMap) (k : string) (v : Bucket.t) :
  ColorMapOps.has m k = false -> ColorMapOps.set m k v = m ++ [(k, v)].
Proof.
  unfold ColorMapOps.has.
  induction m as [| [k' v'] m IH]; cbn [ColorMapOps.set existsb fst app].
  - reflexivity.
  - intros H. apply orb_false_elim in H as [Hk Hm].
    rewrite Hk, (IH Hm). reflexivity.
Qed.

Lemma samplePixel_appends_keys (pixels : list Z) (i : nat) (m : ColorMap) :
  exists created, map fst (samplePixel pixels i m) = map fst m ++ created.
Proof.
  unfold samplePixel.
  destruct (skipped pixels i); [exists []; now rewrite app_nil_r |].
  destruct (nth_error pixels i) as [r |]; [| exists []; now rewrite app_nil_r].
  destruct (nth_error pixels (i + 1)) as [g |]; [| exists []; now rewrite app_nil_r].
  destruct (nth_error pixels (i + 2)) as [b |]; [| exists []; now rewrite app_nil_r].
  cbv zeta.
  destruct (ColorMapOps.has m _) eqn:Hhas.
  - exists []. now rewrite incrementCount_keys, app_nil_r.
  - rewrite (set_fresh _ _ _ Hhas), map_app. eexists. reflexivity.
Qed.

(** C3.  The ranker returns the buckets sorted by count, highest first;
    buckets of equal count stay in the order in which the scan created
    them; the result is cut to the first five and is the whole sorted list
    when there are no more than five buckets; a bucket of the highest count
    comes first and no bucket follows one with a strictly lower count. *)
Theorem ranker_sorts_stably_and_truncates (buckets : list Bucket.t) :
  let ranked := sort byCountDesc buckets in
  Permutation ranked buckets /\
  StronglySorted countGe ranked /\
  (forall c, filter (hasCount c) ranked = filter (hasCount c) buckets) /\
  (forall pixels i m, exists created,
      map fst (samplePixel pixels i m) = map fst m ++ created) /\
  topBuckets buckets = firstn 5 ranked /\
  length (topBuckets buckets) = Nat.min 5 (length buckets) /\
  ((length buckets <= 5)%nat -> topBuckets buckets = ranked) /\
  (forall i j x y,
      nth_error (topBuckets buckets) i = Some x ->
      nth_error (topBuckets buckets) j = Some y ->
      Bucket.count y < Bucket.count x -> (i < j)%nat) /\
  (buckets <> [] ->
   exists top, hd_error (topBuckets buckets) = Some top /\
     forall e, In e buckets -> Bucket.count e <= Bucket.count top).
Proof.
  cbv zeta.
  repeat split.
  - apply sort_perm.
  - apply sort_sorted.
  - intros c. apply sort_stable.
  - apply samplePixel_appends_keys.
  - unfold topBuckets, slice5. rewrite length_firstn, sort_length. reflexivity.
  - intros Hlen. unfold topBuckets, slice5. apply firstn_all2.
    rewrite sort_length. exact Hlen.
  - apply topBuckets_dominance.
  - apply topBuckets_head.
Qed.

(* ================================================================== *)
(** ** The sampling loop *)

Lemma strideIndices_done (len i : nat) : (len <= i)%nat -> strideIndices len i = [].
Proof.
  intros H. unfold strideIndices.
  replace ((len - i + 15) / 16)%nat with 0%nat; [reflexivity |].
  symmetry. apply Nat.div_small. lia.
Qed.

Lemma strideIndices_step (len i : nat) :
  (i < len)%nat -> strideIndices len i = i :: strideIndices len (i + 16).
Proof.
  intros H. unfold strideIndices.
  replace ((len - i + 15) / 16)%nat with (S ((len - (i + 16) + 15) / 16)).
  - cbn [seq map]. rewrite <- seq_shift, map_map.
    f_equal; [lia |].
    apply map_ext. intros k. lia.
  - destruct (Nat.le_gt_cases 16 (len - i)) as [Hbig | Hsmall].
    + replace (len - i + 15)%nat with (len - (i + 16) + 15 + 1 * 16)%nat by lia.
      rewrite Nat.div_add by lia. lia.
    + replace (len - (i + 16))%nat with 0%nat by lia.
      replace (len - i + 15)%nat with ((len - i - 1) + 1 * 16)%nat by lia.
      rewrite Nat.div_add by lia.
      rewrite (Nat.div_small (len - i - 1)) by lia. reflexivity.
Qed.

(** With enough fuel the loop is the fold of its body over the stride
    indices; one unit of fuel per byte is enough. *)
Lemma forLoop_fold {S : Type} (body : nat -> S -> S) (fuel len i : nat) (s : S) :
  (len - i <= 16 * fuel)%nat ->
  forLoop fuel len i body s = fold_left (fun s i => body i s) (strideIndices len i) s.
Proof.
  revert i s.
  induction fuel as [| fuel IH]; intros i s Hfuel; cbn [forLoop].
  - rewrite strideIndices_done by lia. reflexivity.
  - destruct (i <? len)%nat eqn:E.
    + apply Nat.ltb_lt in E.
      rewrite (strideIndices_step _ _ E). cbn [fold_left].
      apply IH. lia.
    + apply Nat.ltb_ge in E.
      rewrite strideIndices_done by lia. reflexivity.
Qed.

(** More fuel than that changes nothing. *)
Lemma forLoop_fuel {S : Type} (body : nat -> S -> S) (fuel len : nat) (s : S) :
  (len <= fuel)%nat -> forLoop fuel len 0 body s = forLoop len len 0 body s.
Proof.
  intros H. rewrite !forLoop_fold by lia. reflexivity.
Qed.

Lemma fold_left_snoc {A : Type} (l acc : list A) :
  fold_left (fun visited i => visited ++ [i]) l acc = acc ++ l.
Proof.
  revert acc. induction l as [| x l IH]; intros acc; cbn [fold_left].
  - now rewrite app_nil_r.
  - rewrite IH, <- app_assoc. reflexivity.
Qed.

Lemma sampledIndices_stride (len : nat) : sampledIndices len = strideIndices len 0.
Proof.
  unfold sampledIndices. rewrite forLoop_fold by lia. apply fold_left_snoc.
Qed.

Lemma scanPixels_fold (pixels : list Z) :
  scanPixels pixels =
  fold_left (fun m i => samplePixel pixels i m) (sampledIndices (length pixels)) [].
Proof.
  unfold scanPixels. rewrite forLoop_fold by lia.
  rewrite sampledIndices_stride. reflexivity.
Qed.

Lemma strideIndices_In (len i : nat) :
  In i (strideIndices len 0) <-> (i < len)%nat /\ (i mod 16 = 0)%nat.
Proof.
  unfold strideIndices. rewrite in_map_iff. split.
  - intros [k [<- Hk]]. apply in_seq in Hk.
    assert (Hdiv : (16 * ((len - 0 + 15) / 16) <= len - 0 + 15)%nat)
      by (apply Nat.Div0.mul_div_le).
    split; [lia |].
    cbn [Nat.add]. rewrite Nat.mul_comm. apply Nat.Div0.mod_mul.
  - intros [Hlt Hmod]. exists (i / 16)%nat.
    pose proof (Nat.div_mod_eq i 16) as Hi. rewrite Hmod in Hi.
    split; [lia |].
    apply in_seq. split; [lia |].
    cbn [Nat.add].
    apply Nat.Div0.div_lt_upper_bound.
    pose proof (Nat.div_mod_eq (len - 0 + 15) 16) as Hl.
    pose proof (Nat.mod_upper_bound (len - 0 + 15) 16 ltac:(lia)) as Hu.
    lia.
Qed.

Lemma ceilQuarter_eq (n : nat) : ceilQuarter n = ((4 * n - 0 + 15) / 16)%nat.
Proof.
  unfold ceilQuarter, Qceiling, Qfloor, Qdiv, Qmult, Qinv, Qopp, inject_Z.
  cbn [Qnum Qden Pos.mul].
  apply Nat2Z.inj. rewrite Z2Nat.id.
  - rewrite Nat2Z.inj_div.
    replace (Z.of_nat (4 * n - 0 + 15)) with (4 * Z.of_nat n + 15) by lia.
    change (Z.of_nat 16) with 16.
    pose proof (Z.div_mod (- (Z.of_nat n * 1)) 4 ltac:(lia)) as H1.
    pose proof (Z.mod_pos_bound (- (Z.of_nat n * 1)) 4 ltac:(lia)) as H2.
    pose proof (Z.div_mod (4 * Z.of_nat n + 15) 16 ltac:(lia)) as H3.
    pose proof (Z.mod_pos_bound (4 * Z.of_nat n + 15) 16 ltac:(lia)) as H4.
    lia.
  - pose proof (Z.div_mod (- (Z.of_nat n * 1)) 4 ltac:(lia)) as H1.
    pose proof (Z.mod_pos_bound (- (Z.of_nat n * 1)) 4 ltac:(lia)) as H2.
    lia.
Qed.

(** C8.  On a buffer of [n] pixels the loop body runs at the byte indices
    0, 16, 32, ..., that is at ceil(n / 4) positions, every one of them a
    pixel whose four bytes are all inside the buffer. *)
Theorem sampler_visits_every_fourth_pixel (pixels : list Z) (n : nat) :
  length pixels = (4 * n)%nat ->
  sampledIndices (length pixels)
    = map (fun k => (16 * k)%nat) (seq 0 (ceilQuarter n)) /\
  length (sampledIndices (length pixels)) = ceilQuarter n /\
  scanPixels pixels
    = fold_left (fun m i => samplePixel pixels i m) (sampledIndices (length pixels)) [] /\
  (forall i, In i (sampledIndices (length pixels)) ->
     (i + 3 < length pixels)%nat /\
     nth_error pixels i <> None /\ nth_error pixels (i + 1) <> None /\
     nth_error pixels (i + 2) <> None /\ nth_error pixels (i + 3) <> None).
Proof.
  intros Hlen.
  assert (Hidx : sampledIndices (length pixels)
                 = map (fun k => (16 * k)%nat) (seq 0 (ceilQuarter n))).
  { rewrite sampledIndices_stride, ceilQuarter_eq, Hlen. reflexivity. }
  split; [exact Hidx |].
  split; [rewrite Hidx, length_map, length_seq; reflexivity |].
  split; [apply scanPixels_fold |].
  intros i Hi.
  rewrite sampledIndices_stride in Hi. apply strideIndices_In in Hi as [Hlt Hmod].
  assert (Hin : (i + 3 < length pixels)%nat).
  { pose proof (Nat.div_mod_eq i 16) as Hd. rewrite Hmod in Hd. lia. }
  split; [exact Hin |].
  repeat split; apply nth_error_Some; lia.
Qed.

(** The witness of C8: a buffer of five pixels is sampled at its first
    and its fifth pixel. *)
Lemma sampler_visits_every_fourth_pixel_witness :
  length (repeat 255 20) = (4 * 5)%nat /\
  sampledIndices (length (repeat 255 20)) = [0; 16]%nat.
Proof.
  split; [reflexivity |].
  exact (proj1 (sampler_visits_every_fourth_pixel (repeat 255 20) 5 eq_refl)).
Defined.

(* ================================================================== *)
(** ** The quantizer *)

Lemma grouped_eq (x : Z) : grouped x = (x + 10) / 20 * 20.
Proof.
  unfold grouped, JS.Math_round, Qfloor, Qplus, Qdiv, Qmult, Qinv, inject_Z.
  cbn [Qnum Qden Pos.mul].
  f_equal.
  match goal with
  | |- ?n / ?d = _ =>
      replace n with ((x + 10) * 2) by lia;
      replace d with (20 * 2) by reflexivity
  end.
  apply Z.div_mul_cancel_r; lia.
Qed.

Lemma grouped_quantized (x : Z) : Spec.isByte x -> Spec.isQuantized (grouped x).
Proof.
  unfold Spec.isByte, Spec.isQuantized. intros Hx. rewrite grouped_eq.
  pose proof (Z.div_mod (x + 10) 20 ltac:(lia)) as Hd.
  pose proof (Z.mod_pos_bound (x + 10) 20 ltac:(lia)) as Hm.
  split; [lia | apply Z.mod_mul; lia].
Qed.

Lemma grouped_rounds (x : Z) :
  0 <= x -> Spec.roundsHalfAwayFromZero (inject_Z x / 20) ((x + 10) / 20).
Proof.
  intros Hx.
  pose proof (Z.div_mod (x + 10) 20 ltac:(lia)) as Hd.
  pose proof (Z.mod_pos_bound (x + 10) 20 ltac:(lia)) as Hm.
  set (k := (x + 10) / 20) in *.
  unfold Spec.roundsHalfAwayFromZero.
  unfold Qabs, Qle, Qlt, Qeq, Qminus, Qplus, Qopp, Qdiv, Qmult, Qinv, inject_Z.
  cbn [Qnum Qden Pos.mul].
  split; [lia |].
  intros Htie. lia.
Qed.

(** A surviving pixel creates, in an empty map, the bucket of its grouped
    channels, stored as they are. *)
Lemma samplePixel_survivor (pixels : list Z) (i : nat) (m : ColorMap) (r g b a : Z) :
  nth_error pixels i = Some r ->
  nth_error pixels (i + 1) = Some g ->
  nth_error pixels (i + 2) = Some b ->
  nth_error pixels (i + 3) = Some a ->
  128 <= a ->
  samplePixel pixels i m =
  let key := colorKey (grouped r) (grouped g) (grouped b) in
  if ColorMapOps.has m key
  then ColorMapOps.incrementCount m key
  else ColorMapOps.set m key (Bucket.mk (grouped r) (grouped g) (grouped b) 1).
Proof.
  intros Hr Hg Hb Ha Halpha.
  unfold samplePixel, skipped. rewrite Hr, Hg, Hb, Ha.
  cbn [JS.lt JS.isUndefined orb].
  replace (a <? 128) with false by (symmetry; apply Z.ltb_ge; lia).
  reflexivity.
Qed.

(** C2.  A channel value [x] of a surviving pixel is mapped to 20 times
    [x / 20] rounded to the nearest integer, a tie going away from zero,
    in exact arithmetic and in binary64 alike: 150 becomes 160 and 255
    becomes 260.  The bucket stores the grouped
    triple as it is, above 255 or not, and only [rgbToHex] clamps it. *)
Theorem quantizer_rounds_half_away (x r g b a : Z) :
  Spec.isByte x -> Spec.isByte r -> Spec.isByte g -> Spec.isByte b -> 128 <= a ->
  (exists k, grouped x = k * 20 /\ Spec.roundsHalfAwayFromZero (inject_Z x / 20) k) /\
  Binary64.grouped64 x = Some (grouped x) /\
  grouped 150 = 160 /\ grouped 255 = 260 /\
  ColorMapOps.values (scanPixels [r; g; b; a])
    = [Bucket.mk (grouped r) (grouped g) (grouped b) 1] /\
  ColorMapOps.values (scanPixels [255; 255; 255; a]) = [Bucket.mk 260 260 260 1] /\
  sortedColors [255; 255; 255; a] = ["#ffffff"%string].
Proof.
  intros Hx Hr Hg Hb Ha.
  assert (Hscan : forall r' g' b',
             scanPixels [r'; g'; b'; a]
             = [(colorKey (grouped r') (grouped g') (grouped b'),
                 Bucket.mk (grouped r') (grouped g') (grouped b') 1)]).
  { intros r' g' b'. unfold scanPixels. cbn [length forLoop Nat.ltb Nat.leb].
    rewrite (samplePixel_survivor _ 0 [] r' g' b' a) by (reflexivity || assumption).
    reflexivity. }
  split; [| split; [| split; [| split; [| split; [| split]]]]].
  - exists ((x + 10) / 20). split; [apply grouped_eq |].
    apply grouped_rounds. unfold Spec.isByte in Hx. lia.
  - apply grouped64_exact, Hx.
  - reflexivity.
  - reflexivity.
  - rewrite Hscan. reflexivity.
  - rewrite Hscan. reflexivity.
  - unfold sortedColors. rewrite Hscan. reflexivity.
Qed.

(** The witness of C2: the brightest opaque pixel. *)
Lemma quantizer_rounds_half_away_witness :
  (Spec.isByte 255 /\ 128 <= 255) /\
  ColorMapOps.values (scanPixels [255; 255; 255; 255]) = [Bucket.mk 260 260 260 1].
Proof.
  assert (H255 : Spec.isByte 255) by (unfold Spec.isByte; lia).
  assert (Ha : 128 <= 255) by lia.
  split; [split; assumption |].
  exact (proj1 (proj2 (proj2 (proj2 (proj2 (proj2
    (quantizer_rounds_half_away 255 255 255 255 255 H255 H255 H255 H255 Ha))))))).
Defined.

(* ================================================================== *)
(** ** Invariants of the frequency map *)

Lemma has_false_not_in (m : ColorMap) (k : string) :
  ColorMapOps.has m k = false -> ~ In k (map fst m).
Proof.
  unfold ColorMapOps.has.
  induction m as [| [k' v] m IH]; cbn [existsb map fst In].
  - intros _ [].
  - intros H. apply orb_false_elim in H as [Hk Hm].
    intros [-> | Hin].
    + rewrite String.eqb_refl in Hk. discriminate.
    + exact (IH Hm Hin).
Qed.

Lemma has_get (m : ColorMap) (k : string) :
  ColorMapOps.has m k = true <-> exists v, ColorMapOps.get m k = Some v.
Proof.
  unfold ColorMapOps.has.
  induction m as [| [k' v] m IH]; cbn [existsb ColorMapOps.get fst].
  - split; [discriminate | intros [v H]; discriminate].
  - destruct (String.eqb k' k); cbn [orb].
    + split; [intros _; now exists v | reflexivity].
    + exact IH.
Qed.

(** The increment changes the count of the bucket that [get] returns for
    the key, and nothing else of it. *)
Lemma get_incrementCount (m : ColorMap) (k : string) :
  ColorMapOps.get (ColorMapOps.incrementCount m k) k =
  option_map (fun existing =>
                Bucket.mk (Bucket.r existing) (Bucket.g existing) (Bucket.b existing)
                          (Bucket.count existing + 1))
             (ColorMapOps.get m k).
Proof.
  induction m as [| [k' v] m IH]; cbn [ColorMapOps.incrementCount ColorMapOps.get].
  - reflexivity.
  - destruct (String.eqb k' k) eqn:E; cbn [ColorMapOps.get]; rewrite E.
    + reflexivity.
    + exact IH.
Qed.

Lemma incrementCount_ok (m : ColorMap) (k : string) :
  Forall bucketOk m -> Forall bucketOk (ColorMapOps.incrementCount m k).
Proof.
  induction 1 as [| [k' v] m Hv Hm IH]; cbn [ColorMapOps.incrementCount].
  - constructor.
  - destruct (String.eqb k' k); constructor; assumption.
Qed.

Lemma samplePixel_ok (pixels : list Z) (i : nat) (m : ColorMap) :
  Forall Spec.isByte pixels -> mapOk m -> mapOk (samplePixel pixels i m).
Proof.
  intros Hbytes [Hnodup Hok].
  assert (Hbyte : forall j v, nth_error pixels j = Some v -> Spec.isByte v).
  { intros j v Hj. rewrite Forall_forall in Hbytes.
    apply Hbytes. eapply nth_error_In, Hj. }
  unfold samplePixel.
  destruct (skipped pixels i); [split; assumption |].
  destruct (nth_error pixels i) as [r |] eqn:Hr; [| split; assumption].
  destruct (nth_error pixels (i + 1)) as [g |] eqn:Hg; [| split; assumption].
  destruct (nth_error pixels (i + 2)) as [b |] eqn:Hb; [| split; assumption].
  cbv zeta.
  destruct (ColorMapOps.has m _) eqn:Hhas.
  - split.
    + rewrite incrementCount_keys. exact Hnodup.
    + apply incrementCount_ok, Hok.
  - rewrite (set_fresh _ _ _ Hhas). split.
    + rewrite map_app. cbn [map fst].
      apply NoDup_app; [exact Hnodup | repeat constructor; intros [] |].
      intros k Hin [<- | []]. exact (has_false_not_in _ _ Hhas Hin).
    + apply Forall_app. split; [exact Hok |].
      constructor; [| constructor].
      split; [reflexivity |].
      cbn [snd bucketTriple quantizedTriple Bucket.r Bucket.g Bucket.b].
      repeat split; apply grouped_quantized; eauto.
Qed.

Lemma fold_samplePixel_ok (pixels : list Z) (indices : list nat) (m : ColorMap) :
  Forall Spec.isByte pixels -> mapOk m ->
  mapOk (fold_left (fun m i => samplePixel pixels i m) indices m).
Proof.
  intros Hbytes. revert m.
  induction indices as [| i indices IH]; intros m Hm; cbn [fold_left].
  - exact Hm.
  - apply IH, samplePixel_ok; assumption.
Qed.

Lemma scanPixels_ok (pixels : list Z) :
  Forall Spec.isByte pixels -> mapOk (scanPixels pixels).
Proof.
  intros Hbytes. rewrite scanPixels_fold.
  apply fold_samplePixel_ok; [exact Hbytes |].
  split; constructor.
Qed.

Lemma NoDup_map_factor {A B C : Type} (f : B -> C) (h : A -> B) (l : list A) :
  NoDup (map (fun x => f (h x)) l) -> NoDup (map h l).
Proof.
  induction l as [| x l IH]; cbn [map]; intros H.
  - constructor.
  - inversion H as [| ? ? Hnotin Hrest]; subst.
    constructor; [| apply IH, Hrest].
    intros Hin. apply Hnotin.
    rewrite <- (map_map h f). apply in_map, Hin.
Qed.

(** Distinct keys hold distinct triples. *)
Lemma mapOk_triples (m : ColorMap) :
  mapOk m ->
  NoDup (map bucketTriple (ColorMapOps.values m)) /\
  Forall quantizedTriple (map bucketTriple (ColorMapOps.values m)).
Proof.
  intros [Hnodup Hok]. unfold ColorMapOps.values. rewrite map_map. split.
  - apply (NoDup_map_factor tripleKey).
    erewrite map_ext_in; [exact Hnodup |].
    intros e He. rewrite Forall_forall in Hok.
    symmetry. apply (Hok e He).
  - apply Forall_map. eapply Forall_impl; [| exact Hok].
    intros e He. apply He.
Qed.

(* ================================================================== *)
(** ** The encoder on quantized triples *)

(** Clamping is injective on the quantized values: 260 alone is moved,
    to 255, where no other quantized value lands. *)
Lemma clamp_injective_on_quantized (u v : Z) :
  Spec.isQuantized u -> Spec.isQuantized v ->
  clampChannel (inject_Z u) = clampChannel (inject_Z v) -> u = v.
Proof.
  unfold clampChannel, JS.Math_max, JS.Math_min, JS.Math_floor.
  rewrite !Qfloor_Z.
  intros [Hu Hum] [Hv Hvm] H.
  pose proof (Z.div_mod u 20 ltac:(lia)) as Hdu.
  pose proof (Z.div_mod v 20 ltac:(lia)) as Hdv.
  lia.
Qed.

Lemma hexPair_injective (u v : Z) :
  0 <= u <= 255 -> 0 <= v <= 255 -> Spec.hexPair u = Spec.hexPair v -> u = v.
Proof.
  intros Hu Hv H.
  assert (Hall : forall a, 0 <= a <= 255 ->
            forallb (fun b => implb (String.eqb (Spec.hexPair a) (Spec.hexPair b)) (a =? b))
                    (map Z.of_nat (seq 0 256)) = true).
  { apply (forall_bytes (fun a =>
      forallb (fun b => implb (String.eqb (Spec.hexPair a) (Spec.hexPair b)) (a =? b))
              (map Z.of_nat (seq 0 256)))).
    vm_compute. reflexivity. }
  pose proof (forall_bytes _ (Hall u Hu) v Hv) as Huv.
  cbv beta in Huv.
  apply String.eqb_eq in H. rewrite H in Huv.
  apply Z.eqb_eq, Huv.
Qed.

Lemma append_inj_length (s1 s2 t1 t2 : string) :
  String.length s1 = String.length s2 ->
  (s1 ++ t1 = s2 ++ t2)%string -> s1 = s2 /\ t1 = t2.
Proof.
  revert s2.
  induction s1 as [| c s1 IH]; intros [| d s2] Hlen H; try discriminate.
  - split; [reflexivity | exact H].
  - cbn [append] in H. injection H as -> H.
    cbn [String.length] in Hlen. injection Hlen as Hlen.
    destruct (IH s2 Hlen H) as [-> ->]. split; reflexivity.
Qed.

(** Distinct quantized triples encode to distinct strings. *)
Lemma tripleHex_injective (t1 t2 : Z * Z * Z) :
  quantizedTriple t1 -> quantizedTriple t2 -> tripleHex t1 = tripleHex t2 -> t1 = t2.
Proof.
  destruct t1 as [[r1 g1] b1], t2 as [[r2 g2] b2].
  intros (Hr1 & Hg1 & Hb1) (Hr2 & Hg2 & Hb2) H.
  unfold tripleHex in H. rewrite !rgbToHex_hexPairs in H.
  apply (f_equal (fun s => match s with
                           | String _ rest => rest
                           | EmptyString => EmptyString
                           end)) in H.
  cbv beta iota in H.
  apply append_inj_length in H as [Hr H]; [| reflexivity].
  apply append_inj_length in H as [Hg Hb]; [| reflexivity].
  apply hexPair_injective in Hr, Hg, Hb; try apply clampChannel_range.
  apply clamp_injective_on_quantized in Hr, Hg, Hb; try assumption.
  congruence.
Qed.

Lemma NoDup_map_injective_on {A B : Type} (f : A -> B) (P : A -> Prop) (l : list A) :
  (forall x y, P x -> P y -> f x = f y -> x = y) ->
  Forall P l -> NoDup l -> NoDup (map f l).
Proof.
  intros Hinj HP Hnodup.
  induction Hnodup as [| x l Hnotin Hnodup IH]; cbn [map].
  - constructor.
  - inversion HP as [| ? ? Px Pl]; subst.
    constructor; [| apply IH, Pl].
    intros Hin. apply in_map_iff in Hin as [y [Hxy Hy]].
    rewrite Forall_forall in Pl.
    apply Hnotin. rewrite <- (Hinj y x (Pl y Hy) Px Hxy). exact Hy.
Qed.

Lemma NoDup_firstn {A : Type} (n : nat) (l : list A) : NoDup l -> NoDup (firstn n l).
Proof.
  intros H. rewrite <- (firstn_skipn n l) in H.
  apply NoDup_app_remove_r in H. exact H.
Qed.

Lemma Forall_firstn_of {A : Type} (P : A -> Prop) (n : nat) (l : list A) :
  Forall P l -> Forall P (firstn n l).
Proof.
  intros H. rewrite <- (firstn_skipn n l) in H.
  apply Forall_app in H. apply H.
Qed.

(** The filter on the length keeps everything. *)
Lemma encodeTop_unfiltered (m : ColorMap) :
  encodeTop m = map bucketHex (topBuckets (ColorMapOps.values m)).
Proof.
  unfold encodeTop.
  apply forallb_filter_id, forallb_forall.
  intros s Hs. apply in_map_iff in Hs as [e [<- _]].
  unfold hasLength7, bucketHex. rewrite rgbToHex_length. reflexivity.
Qed.

(* ================================================================== *)
(** ** The extraction as a whole *)

Lemma encodeTop_length (m : ColorMap) : (length (encodeTop m) <= Spec.topK)%nat.
Proof.
  rewrite encodeTop_unfiltered, length_map.
  unfold topBuckets, slice5. apply firstn_le_length.
Qed.

Lemma encodeTop_hex (m : ColorMap) :
  Forall (fun s => Spec.isHexColor s = true) (encodeTop m).
Proof.
  rewrite encodeTop_unfiltered. apply Forall_map, Forall_forall.
  intros e _. apply rgbToHex_isHexColor.
Qed.

(** C1.  On a valid RGBA buffer of the declared width and height the
    extraction returns at most five strings (possibly none), each a [#]
    followed by six lowercase hex digits. *)
Theorem extraction_returns_up_to_five_hex_colors
  (pixels : list Z) (width height : Z) :
  Spec.validRGBA pixels width height ->
  (0 <= length (sortedColors pixels) <= Spec.topK)%nat /\
  Forall (fun s => Spec.isHexColor s = true) (sortedColors pixels).
Proof.
  intros _. unfold sortedColors. split; [split |].
  - apply Nat.le_0_l.
  - apply encodeTop_length.
  - apply encodeTop_hex.
Qed.

(** The witness of C1: a 2 x 1 image, one opaque pixel and one transparent. *)
Lemma extraction_returns_up_to_five_hex_colors_witness :
  Spec.validRGBA [12; 200; 255; 255; 0; 0; 0; 0] 2 1 /\
  (0 <= length (sortedColors [12; 200; 255; 255; 0; 0; 0; 0]%Z) <= Spec.topK)%nat /\
  Forall (fun s => Spec.isHexColor s = true) (sortedColors [12; 200; 255; 255; 0; 0; 0; 0]).
Proof.
  assert (Hvalid : Spec.validRGBA [12; 200; 255; 255; 0; 0; 0; 0] 2 1).
  { unfold Spec.validRGBA, Spec.isByte.
    repeat split; try lia; repeat constructor; lia. }
  split; [exact Hvalid |].
  exact (extraction_returns_up_to_five_hex_colors _ 2 1 Hvalid).
Defined.

(** C9.  A triple the quantizer can produce encodes to exactly seven
    characters, and the length filter at the end of the pipeline removes
    nothing. *)
Theorem length_filter_never_triggers (r g b : Z) (pixels : list Z) :
  Spec.isQuantized r -> Spec.isQuantized g -> Spec.isQuantized b ->
  String.length (rgbToHex (inject_Z r) (inject_Z g) (inject_Z b)) = 7%nat /\
  hasLength7 (rgbToHex (inject_Z r) (inject_Z g) (inject_Z b)) = true /\
  sortedColors pixels
    = map bucketHex (topBuckets (ColorMapOps.values (scanPixels pixels))).
Proof.
  intros _ _ _. split; [| split].
  - apply rgbToHex_length.
  - unfold hasLength7. rewrite rgbToHex_length. reflexivity.
  - apply encodeTop_unfiltered.
Qed.

(** The witness of C9: the largest quantized value in every channel. *)
Lemma length_filter_never_triggers_witness :
  Spec.isQuantized 260 /\
  String.length (rgbToHex (inject_Z 260) (inject_Z 260) (inject_Z 260)) = 7%nat.
Proof.
  assert (H260 : Spec.isQuantized 260) by (unfold Spec.isQuantized; split; [lia | reflexivity]).
  split; [exact H260 |].
  exact (proj1 (length_filter_never_triggers 260 260 260 [] H260 H260 H260)).
Defined.

Lemma bucketHex_tripleHex (l : list Bucket.t) :
  map bucketHex l = map tripleHex (map bucketTriple l).
Proof. rewrite map_map. reflexivity. Qed.

(** C10.  On a buffer of bytes the extracted colours are pairwise
    distinct, because two distinct triples of quantized values never
    encode to the same string. *)
Theorem extracted_colors_are_distinct (pixels : list Z) (t1 t2 : Z * Z * Z) :
  Forall Spec.isByte pixels ->
  quantizedTriple t1 -> quantizedTriple t2 ->
  NoDup (sortedColors pixels) /\
  (t1 <> t2 -> tripleHex t1 <> tripleHex t2).
Proof.
  intros Hbytes Ht1 Ht2. split.
  - unfold sortedColors. rewrite encodeTop_unfiltered, bucketHex_tripleHex.
    destruct (mapOk_triples _ (scanPixels_ok _ Hbytes)) as [Hnodup Hquant].
    set (buckets := ColorMapOps.values (scanPixels pixels)) in *.
    assert (Hperm : Permutation (map bucketTriple (sort byCountDesc buckets))
                                (map bucketTriple buckets))
      by apply Permutation_map, sort_perm.
    unfold topBuckets, slice5. rewrite <- firstn_map.
    apply (NoDup_map_injective_on tripleHex quantizedTriple).
    + apply tripleHex_injective.
    + apply Forall_firstn_of.
      eapply Permutation_Forall; [symmetry; exact Hperm | exact Hquant].
    + apply NoDup_firstn.
      eapply Permutation_NoDup; [symmetry; exact Hperm | exact Hnodup].
  - intros Hne Heq. apply Hne. apply tripleHex_injective; assumption.
Qed.

(** The witness of C10: white and near-white share the clamped red
    channel of no other pair, and stay distinct. *)
Lemma extracted_colors_are_distinct_witness :
  (Forall Spec.isByte [255; 255; 255; 255] /\
   quantizedTriple (260, 260, 260) /\ quantizedTriple (240, 260, 260)) /\
  NoDup (sortedColors [255; 255; 255; 255]) /\
  ((260, 260, 260) <> (240, 260, 260) ->
   tripleHex (260, 260, 260) <> tripleHex (240, 260, 260)).
Proof.
  assert (Hbytes : Forall Spec.isByte [255; 255; 255; 255])
    by (repeat constructor; unfold Spec.isByte; lia).
  assert (H260 : Spec.isQuantized 260) by (split; [lia | reflexivity]).
  assert (H240 : Spec.isQuantized 240) by (split; [lia | reflexivity]).
  assert (Ht1 : quantizedTriple (260, 260, 260)) by exact (conj H260 (conj H260 H260)).
  assert (Ht2 : quantizedTriple (240, 260, 260)) by exact (conj H240 (conj H260 H260)).
  split; [exact (conj Hbytes (conj Ht1 Ht2)) |].
  exact (extracted_colors_are_distinct _ _ _ Hbytes Ht1 Ht2).
Defined.

(* ================================================================== *)
(** ** The canvas size

    The source computes [maxSize / width], the minimum and the products in
    binary64.  The lemmas follow the magnitude of a number, the [k] with
    value below 2^k, through the operations as [SpecFloat] defines them. *)

Lemma truncate_nonneg (x : Q) : 0 <= Qnum x -> JS.truncate x = Qfloor x.
Proof.
  intros H. unfold JS.truncate.
  replace (Qle_bool 0 x) with true; [reflexivity |].
  symmetry. unfold Qle_bool. cbn [Qnum Qden]. apply Z.leb_le. lia.
Qed.

Lemma digits2_bounds (p : positive) :
  2 ^ (Zpos (digits2_pos p) - 1) <= Zpos p < 2 ^ Zpos (digits2_pos p).
Proof.
  induction p as [p IH | p IH |]; cbn [digits2_pos].
  - rewrite Pos2Z.inj_succ.
    replace (Z.succ (Zpos (digits2_pos p)) - 1) with (Z.succ (Zpos (digits2_pos p) - 1)) by lia.
    rewrite !Z.pow_succ_r by lia. lia.
  - rewrite Pos2Z.inj_succ.
    replace (Z.succ (Zpos (digits2_pos p)) - 1) with (Z.succ (Zpos (digits2_pos p) - 1)) by lia.
    rewrite !Z.pow_succ_r by lia. lia.
  - cbn. lia.
Qed.

Lemma Zdigits2_nonneg (m : Z) : 0 <= Zdigits2 m.
Proof. destruct m; cbn; lia. Qed.

Lemma digits2_le (p : positive) (k : Z) :
  0 <= k -> Zpos p < 2 ^ k -> Zpos (digits2_pos p) <= k.
Proof.
  intros Hk Hp.
  destruct (digits2_bounds p) as [Hlo _].
  destruct (Z_le_gt_dec (Zpos (digits2_pos p)) k) as [H | H]; [exact H |].
  assert (2 ^ k <= 2 ^ (Zpos (digits2_pos p) - 1)) by (apply Z.pow_le_mono_r; lia).
  lia.
Qed.

Lemma Zdigits2_le (m k : Z) : 0 <= m -> 0 <= k -> m < 2 ^ k -> Zdigits2 m <= k.
Proof.
  intros Hm Hk H. destruct m as [| p | p]; cbn [Zdigits2]; try lia.
  now apply digits2_le.
Qed.

Lemma Zdigits2_lt_pow (m : Z) : 0 <= m -> m < 2 ^ Zdigits2 m.
Proof.
  intros Hm. destruct m as [| p | p]; cbn [Zdigits2].
  - reflexivity.
  - apply digits2_bounds.
  - lia.
Qed.

Lemma Zdigits2_succ (m : Z) : 0 <= m -> Zdigits2 (m + 1) <= Zdigits2 m + 1.
Proof.
  intros Hm. pose proof (Zdigits2_nonneg m).
  apply Zdigits2_le; try lia.
  pose proof (Zdigits2_lt_pow m Hm).
  rewrite Z.pow_add_r by lia. change (2 ^ 1) with 2. lia.
Qed.

Lemma shr_1_spec (mrs : shr_record) :
  0 <= shr_m mrs ->
  0 <= shr_m (shr_1 mrs) /\
  Zdigits2 (shr_m (shr_1 mrs)) = Z.max 0 (Zdigits2 (shr_m mrs) - 1).
Proof.
  destruct mrs as [m r s]. cbn [shr_m shr_1].
  destruct m as [| [p | p |] | p]; cbn [shr_m Zdigits2 digits2_pos]; intros H; try lia.
Qed.

Lemma iter_shr_spec (p : positive) (mrs : shr_record) :
  0 <= shr_m mrs ->
  0 <= shr_m (iter_pos shr_1 p mrs) /\
  Zdigits2 (shr_m (iter_pos shr_1 p mrs)) = Z.max 0 (Zdigits2 (shr_m mrs) - Zpos p).
Proof.
  revert mrs.
  induction p as [p IH | p IH |]; intros mrs H; cbn [iter_pos].
  - destruct (shr_1_spec mrs H) as [H1 E1].
    destruct (IH _ H1) as [H2 E2].
    destruct (IH _ H2) as [H3 E3].
    split; [exact H3 |]. rewrite E3, E2, E1. lia.
  - destruct (IH _ H) as [H2 E2].
    destruct (IH _ H2) as [H3 E3].
    split; [exact H3 |]. rewrite E3, E2. lia.
  - apply shr_1_spec, H.
Qed.

Lemma shr_m_of_loc (m : Z) (l : location) : shr_m (shr_record_of_loc m l) = m.
Proof. destruct l as [| []]; reflexivity. Qed.

Lemma shr_fexp_bound (m e : Z) (l : location) (k : Z) :
  0 <= m -> Zdigits2 m + e <= k -> -1074 <= k ->
  0 <= shr_m (fst (shr_fexp prec emax m e l)) /\
  Zdigits2 (shr_m (fst (shr_fexp prec emax m e l))) + snd (shr_fexp prec emax m e l) <= k /\
  snd (shr_fexp prec emax m e l) <= Z.max e (Z.max (k - 53) (-1074)).
Proof.
  intros Hm Hk Hmin.
  unfold shr_fexp, shr.
  assert (Hf : fexp prec emax (Zdigits2 m + e) = Z.max (Zdigits2 m + e - 53) (-1074))
    by reflexivity.
  destruct (fexp prec emax (Zdigits2 m + e) - e) as [| p | p] eqn:En; cbn [fst snd].
  - rewrite shr_m_of_loc. lia.
  - destruct (iter_shr_spec p (shr_record_of_loc m l)) as [H1 E1];
      [now rewrite shr_m_of_loc |].
    rewrite shr_m_of_loc in E1.
    split; [exact H1 |]. rewrite E1. lia.
  - rewrite shr_m_of_loc. lia.
Qed.

Lemma round_nearest_even_bound (m : Z) (l : location) :
  0 <= m ->
  0 <= round_nearest_even m l /\ Zdigits2 (round_nearest_even m l) <= Zdigits2 m + 1.
Proof.
  intros Hm. pose proof (Zdigits2_succ m Hm).
  unfold round_nearest_even.
  destruct l as [| []]; try (split; lia).
  destruct (Z.even m); split; lia.
Qed.

Lemma round_belowMag (mz ez : Z) (lz : location) (k : Z) :
  0 <= mz -> Zdigits2 mz + ez <= k -> -1074 <= k -> k <= 1000 -> ez <= 971 ->
  belowMag (k + 1) (binary_round_aux prec emax false mz ez lz).
Proof.
  intros Hm Hk Hmin Hmax He.
  unfold binary_round_aux.
  destruct (shr_fexp_bound mz ez lz k Hm Hk Hmin) as (H1 & D1 & E1).
  destruct (shr_fexp prec emax mz ez lz) as [mrs' e']. cbn [fst snd] in *.
  destruct (round_nearest_even_bound (shr_m mrs') (loc_of_shr_record mrs') H1) as [H2 D2].
  destruct (shr_fexp_bound (round_nearest_even (shr_m mrs') (loc_of_shr_record mrs')) e'
              loc_Exact (k + 1) H2 ltac:(lia) ltac:(lia)) as (H3 & D3 & E3).
  destruct (shr_fexp prec emax (round_nearest_even (shr_m mrs') (loc_of_shr_record mrs')) e'
              loc_Exact) as [mrs'' e'']. cbn [fst snd] in *.
  destruct (shr_m mrs'') as [| m | m] eqn:Em; cbn [belowMag]; [exact I | | lia].
  replace (e'' <=? emax - prec) with true
    by (symmetry; apply Z.leb_le; change (emax - prec) with 971; lia).
  cbn [belowMag]. cbn [Zdigits2] in D3. lia.
Qed.

(** The product of two numbers below 2^a and 2^b is below 2^(a+b+1). *)
Lemma digits2_mul (p q : positive) :
  Zpos (digits2_pos (p * q)) <= Zpos (digits2_pos p) + Zpos (digits2_pos q).
Proof.
  apply digits2_le; [lia |].
  destruct (digits2_bounds p) as [_ Hp]. destruct (digits2_bounds q) as [_ Hq].
  rewrite Z.pow_add_r by lia. rewrite Pos2Z.inj_mul. nia.
Qed.

Lemma SFmul_belowMag (x y : spec_float) (a b : Z) :
  belowMag a x -> belowMag b y ->
  -1074 <= a + b -> a + b <= 900 ->
  belowMag (a + b + 1) (SFmul prec emax x y).
Proof.
  intros Hx Hy Hmin Hmax.
  destruct x as [sx | sx | | [|] mx ex]; cbn [belowMag] in Hx; try contradiction;
    destruct y as [sy | sy | | [|] my ey]; cbn [belowMag] in Hy; try contradiction;
    cbn [SFmul xorb belowMag]; try exact I.
  pose proof (digits2_mul mx my) as Hd.
  apply round_belowMag; cbn [Zdigits2]; lia.
Qed.

(** The quotient of two positive numbers of magnitudes [magx] and [magy] is
    below 2^(magx - magy + 2). *)
Lemma SFdiv_belowMag (mx my : positive) (ex ey : Z) :
  let magx := Zpos (digits2_pos mx) + ex in
  let magy := Zpos (digits2_pos my) + ey in
  -1074 <= magx - magy + 1 -> magx - magy + 1 <= 1000 -> ex - ey <= 971 ->
  belowMag (magx - magy + 2)
    (SFdiv prec emax (S754_finite false mx ex) (S754_finite false my ey)).
Proof.
  intros magx magy Hmin Hmax He.
  cbn [SFdiv xorb]. unfold SFdiv_core_binary. cbn [Zdigits2].
  set (e' := Z.min (fexp prec emax (Zpos (digits2_pos mx) + ex - (Zpos (digits2_pos my) + ey)))
                   (ex - ey)).
  assert (Hf : fexp prec emax (Zpos (digits2_pos mx) + ex - (Zpos (digits2_pos my) + ey))
               = Z.max (magx - magy - 53) (-1074)) by reflexivity.
  set (s := ex - ey - e').
  assert (Hs : 0 <= s) by (unfold s, e'; lia).
  set (m' := match s with
             | 0 => Zpos mx
             | Zpos _ => Z.shiftl (Zpos mx) s
             | Zneg _ => 0
             end).
  assert (Hm' : m' = Zpos mx * 2 ^ s).
  { unfold m'. destruct s as [| p | p] eqn:Es; [cbn; lia | | lia].
    apply Z.shiftl_mul_pow2. lia. }
  destruct (Z.div_eucl m' (Zpos my)) as [q r] eqn:Eq.
  assert (Hq : q = m' / Zpos my) by (unfold Z.div; now rewrite Eq).
  assert (Hq0 : 0 <= q) by (rewrite Hq; apply Z.div_pos; nia).
  assert (Hqm : q * Zpos my <= m').
  { rewrite Hq, Z.mul_comm. apply Z.mul_div_le. lia. }
  replace (magx - magy + 2) with (magx - magy + 1 + 1) by lia.
  apply round_belowMag; try lia.
  - destruct q as [| pq | pq]; cbn [Zdigits2]; [unfold e'; lia | | lia].
    destruct (digits2_bounds pq) as [Hlo _].
    destruct (digits2_bounds my) as [Hylo _].
    destruct (digits2_bounds mx) as [_ Hxhi].
    assert (Hlt : 2 ^ (Zpos (digits2_pos pq) - 1 + (Zpos (digits2_pos my) - 1))
                  < 2 ^ (Zpos (digits2_pos mx) + s)).
    { rewrite !Z.pow_add_r by lia.
      assert (0 < 2 ^ s) by (apply Z.pow_pos_nonneg; lia).
      assert (0 < 2 ^ (Zpos (digits2_pos pq) - 1)) by (apply Z.pow_pos_nonneg; lia).
      assert (0 < 2 ^ (Zpos (digits2_pos my) - 1)) by (apply Z.pow_pos_nonneg; lia).
      nia. }
    apply Z.pow_lt_mono_r_iff in Hlt; [| lia | lia].
    unfold s in Hlt. unfold magx, magy. lia.
Qed.

(** An integer below 2^53 converts to itself. *)
Lemma digits2_iter_xO (m d : positive) :
  Zpos (digits2_pos (Pos.iter xO m d)) = Zpos (digits2_pos m) + Zpos d.
Proof.
  induction d as [| d IH] using Pos.peano_ind.
  - cbn [Pos.iter digits2_pos]. lia.
  - rewrite Pos.iter_succ. cbn [digits2_pos]. lia.
Qed.

Lemma round_canonical (s : bool) (m : positive) (e : Z) :
  fexp prec emax (Zpos (digits2_pos m) + e) = e -> e <= 971 ->
  binary_round_aux prec emax s (Zpos m) e loc_Exact = S754_finite s m e.
Proof.
  intros Hc He.
  unfold binary_round_aux, shr_fexp. cbn [Zdigits2].
  rewrite Hc, Z.sub_diag. cbn [shr shr_record_of_loc shr_m loc_of_shr_record round_nearest_even].
  cbn [Zdigits2]. rewrite Hc, Z.sub_diag. cbn [shr shr_record_of_loc shr_m].
  replace (e <=? emax - prec) with true
    by (symmetry; apply Z.leb_le; change (emax - prec) with 971; lia).
  reflexivity.
Qed.

Lemma Prim2SF_ofZ (w : positive) :
  Zpos w < 2 ^ 53 ->
  exists m e, Prim2SF (Binary64.ofZ (Zpos w)) = S754_finite false m e /\
              Zpos (digits2_pos m) + e = Zpos (digits2_pos w) /\ e <= 0 /\ -52 <= e.
Proof.
  intros Hw.
  unfold Binary64.ofZ. rewrite of_uint63_spec, Uint63.of_Z_spec.
  rewrite Z.mod_small by (change wB with (2 ^ 63); split; [lia |];
    apply Z.lt_trans with (2 ^ 53); [exact Hw | reflexivity]).
  cbn [binary_normalize]. unfold binary_round.
  assert (Hd : Zpos (digits2_pos w) <= 53) by (apply digits2_le; [lia | exact Hw]).
  assert (Hf : fexp prec emax (Zpos (digits2_pos w) + 0) = Zpos (digits2_pos w) - 53).
  { unfold fexp, SpecFloat.emin, prec, emax. lia. }
  rewrite Hf. unfold shl_align.
  destruct (Zpos (digits2_pos w) - 53 - 0) as [| d | d] eqn:Ed.
  - exists w, 0. rewrite round_canonical; [| rewrite Hf; lia | lia].
    repeat split; lia.
  - lia.
  - exists (Pos.iter xO w d), (Zpos (digits2_pos w) - 53).
    pose proof (digits2_iter_xO w d) as Hi.
    rewrite round_canonical.
    + repeat split; lia.
    + rewrite Hi. unfold fexp, SpecFloat.emin, prec, emax. lia.
    + lia.
Qed.

(** The order of two numbers bounds the smaller by the bound of the larger. *)
Lemma digits2_mono (p q : positive) :
  (p <= q)%positive -> Zpos (digits2_pos p) <= Zpos (digits2_pos q).
Proof.
  intros H. apply digits2_le; [lia |].
  destruct (digits2_bounds q) as [_ Hq]. lia.
Qed.

Lemma canonical_mag (m : positive) (e : Z) :
  valid_binary (S754_finite false m e) = true ->
  Z.max (Zpos (digits2_pos m) + e - 53) (-1074) = e.
Proof.
  cbn [SpecFloat.valid_binary]. unfold bounded, canonical_mantissa.
  intros H. apply andb_true_iff in H as [H _]. apply Z.eqb_eq in H. exact H.
Qed.

Lemma finite_mag_le (mx my : positive) (ex ey : Z) :
  valid_binary (S754_finite false mx ex) = true ->
  valid_binary (S754_finite false my ey) = true ->
  SFcompare (S754_finite false my ey) (S754_finite false mx ex) <> Some Lt ->
  Zpos (digits2_pos mx) + ex <= Zpos (digits2_pos my) + ey.
Proof.
  intros Vx Vy Hc.
  apply canonical_mag in Vx, Vy.
  cbn [SFcompare] in Hc.
  destruct (Z.compare_spec ey ex) as [E | E | E].
  - subst ey.
    change (Pos.compare_cont Eq my mx) with (Pos.compare my mx) in Hc.
    destruct (Pos.compare_spec my mx) as [E' | E' | E'].
    + subst. lia.
    + congruence.
    + pose proof (digits2_mono mx my ltac:(lia)). lia.
  - congruence.
  - lia.
Qed.

Lemma notlt_belowMag (x y : spec_float) (kx k : Z) :
  belowMag kx x -> belowMag k y ->
  valid_binary x = true -> valid_binary y = true ->
  SFltb y x = false -> belowMag k x.
Proof.
  intros Hx Hy Vx Vy Hlt.
  destruct x as [sx | sx | | [|] mx ex]; cbn [belowMag] in Hx |- *; try contradiction;
    [exact I |].
  destruct y as [sy | sy | | [|] my ey]; cbn [belowMag] in Hy; try contradiction.
  - discriminate Hlt.
  - assert (Hc : SFcompare (S754_finite false my ey) (S754_finite false mx ex) <> Some Lt).
    { intros E. unfold SFltb in Hlt. rewrite E in Hlt. discriminate. }
    pose proof (finite_mag_le mx my ex ey Vx Vy Hc). lia.
Qed.

Lemma lt_belowMag (x y : spec_float) (kx k : Z) :
  belowMag kx x -> belowMag k y ->
  valid_binary x = true -> valid_binary y = true ->
  SFltb x y = true -> belowMag k x.
Proof.
  intros Hx Hy Vx Vy Hlt.
  destruct x as [sx | sx | | [|] mx ex]; cbn [belowMag] in Hx |- *; try contradiction;
    [exact I |].
  destruct y as [sy | sy | | [|] my ey]; cbn [belowMag] in Hy; try contradiction.
  - discriminate Hlt.
  - assert (Hc : SFcompare (S754_finite false my ey) (S754_finite false mx ex) <> Some Lt).
    { intros E. unfold SFltb in Hlt. cbn [SFcompare] in Hlt, E.
      destruct (Z.compare_spec ex ey) as [E1 | E1 | E1];
        destruct (Z.compare_spec ey ex) as [E2 | E2 | E2]; try lia; try discriminate.
      subst.
      change (Pos.compare_cont Eq my mx) with (Pos.compare my mx) in E.
      change (Pos.compare_cont Eq mx my) with (Pos.compare mx my) in Hlt.
      rewrite Pos.compare_antisym in E.
      destruct (Pos.compare mx my); discriminate. }
    pose proof (finite_mag_le mx my ex ey Vx Vy Hc). lia.
Qed.


Lemma SFltb_irrefl (x : spec_float) : SFltb x x = false.
Proof.
  unfold SFltb.
  destruct x as [[|] | [|] | | [|] m e]; cbn [SFcompare]; try reflexivity;
    rewrite Z.compare_refl;
    change (Pos.compare_cont Eq m m) with (Pos.compare m m);
    rewrite Pos.compare_refl; reflexivity.
Qed.

Lemma SFltb_asym (x y : spec_float) : SFltb x y = true -> SFltb y x = false.
Proof.
  unfold SFltb.
  destruct x as [[|] | [|] | | [|] mx ex], y as [[|] | [|] | | [|] my ey];
    cbn [SFcompare]; try reflexivity; try discriminate;
    rewrite (Z.compare_antisym ex ey);
    change (Pos.compare_cont Eq my mx) with (Pos.compare my mx);
    change (Pos.compare_cont Eq mx my) with (Pos.compare mx my);
    rewrite (Pos.compare_antisym mx my);
    destruct (ex ?= ey); cbn [CompOpp]; try reflexivity; try discriminate;
    destruct (mx ?= my)%positive; cbn [CompOpp]; try reflexivity; discriminate.
Qed.

Lemma quotient_belowMag (d : Z) :
  0 < d < 2 ^ 32 ->
  belowMag (11 - Zdigits2 d) (Prim2SF (Binary64.ofZ maxSize / Binary64.ofZ d)).
Proof.
  intros Hd. destruct d as [| w | w]; try lia.
  assert (Hw : Zpos w < 2 ^ 53)
    by (apply Z.lt_trans with (2 ^ 32); [lia | reflexivity]).
  assert (Hdig : Zpos (digits2_pos w) <= 32) by (apply digits2_le; lia).
  destruct (Prim2SF_ofZ w Hw) as (m & e & Ew & Hmag & He0 & He).
  destruct (Prim2SF_ofZ 300 ltac:(reflexivity)) as (m3 & e3 & E3 & Hmag3 & He30 & He3).
  change (Zpos (digits2_pos 300)) with 9 in Hmag3.
  rewrite div_spec. unfold maxSize, SF64div. rewrite Ew, E3.
  cbn [Zdigits2].
  replace (11 - Zpos (digits2_pos w))
    with (Zpos (digits2_pos m3) + e3 - (Zpos (digits2_pos m) + e) + 2) by lia.
  apply SFdiv_belowMag; lia.
Qed.

Lemma ratio_belowMag (width height : Z) :
  0 < width < 2 ^ 32 -> 0 < height < 2 ^ 32 ->
  belowMag (11 - Zdigits2 width) (Prim2SF (ratio width height)) /\
  belowMag (11 - Zdigits2 height) (Prim2SF (ratio width height)).
Proof.
  intros Hw Hh.
  pose proof (quotient_belowMag width Hw) as Ha.
  pose proof (quotient_belowMag height Hh) as Hb.
  unfold ratio, Binary64.Math_min.
  destruct (PrimFloat.ltb (Binary64.ofZ maxSize / Binary64.ofZ height) (Binary64.ofZ maxSize / Binary64.ofZ width)) eqn:E;
    rewrite ltb_spec in E.
  - split; [| exact Hb].
    eapply lt_belowMag; eauto using Prim2SF_valid.
  - split; [exact Ha |].
    eapply notlt_belowMag; eauto using Prim2SF_valid.
Qed.

Lemma product_belowMag (side width height : Z) :
  0 < width < 2 ^ 32 -> 0 < height < 2 ^ 32 ->
  side = width \/ side = height ->
  belowMag 12 (Prim2SF (Binary64.ofZ side * ratio width height)).
Proof.
  intros Hw Hh Hside.
  assert (Hs : 0 < side < 2 ^ 32) by (destruct Hside; subst; assumption).
  assert (Hr : belowMag (11 - Zdigits2 side) (Prim2SF (ratio width height)))
    by (destruct Hside; subst; apply ratio_belowMag; assumption).
  destruct side as [| w | w]; try lia.
  assert (Hw53 : Zpos w < 2 ^ 53)
    by (apply Z.lt_trans with (2 ^ 32); [lia | reflexivity]).
  assert (Hdig : Zpos (digits2_pos w) <= 32) by (apply digits2_le; lia).
  destruct (Prim2SF_ofZ w Hw53) as (m & e & Ew & Hmag & He0 & He).
  rewrite mul_spec. unfold SF64mul. rewrite Ew.
  cbn [Zdigits2] in Hr.
  replace 12 with (Zpos (digits2_pos w) + (11 - Zpos (digits2_pos w)) + 1) by lia.
  apply SFmul_belowMag; [cbn [belowMag]; lia | exact Hr | lia | lia].
Qed.

(** A number below 2^32 that is zero or positive converts to its floor. *)
Lemma toUnsignedLong_floor (f : float) (k : Z) :
  k <= 32 -> belowMag k (Prim2SF f) ->
  exists q, Binary64.exact f = Some q /\ Binary64.toUnsignedLong f = Qfloor q.
Proof.
  intros Hk Hf.
  unfold Binary64.toUnsignedLong, Binary64.exact.
  destruct (Prim2SF f) as [s | s | | [|] m e]; cbn [belowMag] in Hf; try contradiction.
  - exists 0%Q. split; reflexivity.
  - cbv zeta.
    destruct (digits2_bounds m) as [_ Hm].
    destruct (0 <=? e) eqn:Ee.
    + apply Z.leb_le in Ee.
      eexists. split; [reflexivity |].
      unfold JS.toUnsignedLong. rewrite truncate_inject_Z, Qfloor_Z.
      apply Z.mod_small.
      assert (Hpos : 0 < 2 ^ e) by (apply Z.pow_pos_nonneg; lia).
      assert (Hle : 2 ^ (Z.pos (digits2_pos m) + e) <= 2 ^ 32)
        by (apply Z.pow_le_mono_r; lia).
      rewrite Z.pow_add_r in Hle by lia.
      split; nia.
    + apply Z.leb_gt in Ee.
      eexists. split; [reflexivity |].
      unfold JS.toUnsignedLong. rewrite truncate_nonneg by (cbn [Qnum]; lia).
      unfold Qfloor. cbn [Qnum Qden].
      rewrite Pos2Z.inj_pow, Z2Pos.id by lia.
      change (Z.pos 2) with 2.
      assert (Hpos : 0 < 2 ^ (- e)) by (apply Z.pow_pos_nonneg; lia).
      apply Z.mod_small. split; [apply Z.div_pos; lia |].
      apply Z.div_lt_upper_bound; [exact Hpos |].
      rewrite <- Z.pow_add_r by lia.
      apply Z.lt_le_trans with (2 ^ Z.pos (digits2_pos m)); [exact Hm |].
      apply Z.pow_le_mono_r; lia.
Qed.

(** For a side below [maxSize] the quotient [maxSize / side] is above 1. *)
Lemma quotient_above_one (d : Z) :
  0 < d < 300 ->
  exists q, Binary64.exact (Binary64.ofZ maxSize / Binary64.ofZ d) = Some q /\ (1 < q)%Q.
Proof.
  intros Hd.
  assert (H : (match Binary64.exact (Binary64.ofZ maxSize / Binary64.ofZ d) with
               | Some q => negb (Qle_bool q 1)
               | None => d =? 0
               end) = true).
  { revert d Hd. intros d Hd.
    apply (forall_below (fun d =>
             match Binary64.exact (Binary64.ofZ maxSize / Binary64.ofZ d) with
             | Some q => negb (Qle_bool q 1)
             | None => d =? 0
             end) 300); [vm_compute; reflexivity | lia]. }
  destruct (Binary64.exact (Binary64.ofZ maxSize / Binary64.ofZ d)) as [q |].
  - exists q. split; [reflexivity |].
    apply Qnot_le_lt. intros Hle. apply Qle_bool_iff in Hle.
    rewrite Hle in H. discriminate.
  - apply Z.eqb_eq in H. lia.
Qed.

(** The ratio is one of the two quotients, and neither quotient is below
    it. *)
Lemma ratio_is_the_minimum (width height : Z) :
  (ratio width height = (Binary64.ofZ maxSize / Binary64.ofZ width)%float \/
   ratio width height = (Binary64.ofZ maxSize / Binary64.ofZ height)%float) /\
  PrimFloat.ltb (Binary64.ofZ maxSize / Binary64.ofZ width) (ratio width height) = false /\
  PrimFloat.ltb (Binary64.ofZ maxSize / Binary64.ofZ height) (ratio width height) = false.
Proof.
  unfold ratio, Binary64.Math_min.
  destruct (PrimFloat.ltb (Binary64.ofZ maxSize / Binary64.ofZ height)
                          (Binary64.ofZ maxSize / Binary64.ofZ width)) eqn:E.
  - split; [now right | split].
    + rewrite ltb_spec in *. now apply SFltb_asym.
    + rewrite ltb_spec. apply SFltb_irrefl.
  - split; [now left | split].
    + rewrite ltb_spec. apply SFltb_irrefl.
    + exact E.
Qed.

(** C5, as the code has it.  For a width and a height that are positive
    (and of type [unsigned long]) the ratio is the smaller of
    [maxSize / width] and [maxSize / height] and is not capped at 1: it is
    above 1 for an image with both sides under [maxSize].  The products
    [width * ratio] and [height * ratio] are finite and the canvas is
    their floors.  No minimum is applied: the canvas of a 1 x 1000 image is
    0 wide. *)
Theorem downscaler_floors_without_minimum (width height : Z) :
  0 < width < 2 ^ 32 -> 0 < height < 2 ^ 32 ->
  ((ratio width height = (Binary64.ofZ maxSize / Binary64.ofZ width)%float \/
    ratio width height = (Binary64.ofZ maxSize / Binary64.ofZ height)%float) /\
   PrimFloat.ltb (Binary64.ofZ maxSize / Binary64.ofZ width) (ratio width height) = false /\
   PrimFloat.ltb (Binary64.ofZ maxSize / Binary64.ofZ height) (ratio width height) = false) /\
  (width < maxSize -> height < maxSize ->
   exists r, Binary64.exact (ratio width height) = Some r /\ (1 < r)%Q) /\
  (exists scaledWidth scaledHeight : Q,
     Binary64.exact (Binary64.ofZ width * ratio width height) = Some scaledWidth /\
     Binary64.exact (Binary64.ofZ height * ratio width height) = Some scaledHeight /\
     canvasWidth width height = Qfloor scaledWidth /\
     canvasHeight width height = Qfloor scaledHeight) /\
  canvasWidth 1 1000 = 0.
Proof.
  intros Hw Hh.
  split; [apply ratio_is_the_minimum | split; [| split]].
  - intros Hws Hhs.
    destruct (ratio_is_the_minimum width height) as [[E | E] _]; rewrite E;
      apply quotient_above_one; unfold maxSize in *; lia.
  - destruct (toUnsignedLong_floor _ 12 ltac:(lia)
                (product_belowMag width width height Hw Hh (or_introl eq_refl)))
      as (pw & Epw & Hpw).
    destruct (toUnsignedLong_floor _ 12 ltac:(lia)
                (product_belowMag height width height Hw Hh (or_intror eq_refl)))
      as (ph & Eph & Hph).
    exists pw, ph. unfold canvasWidth, canvasHeight. auto.
  - vm_compute. reflexivity.
Qed.

(** The witness of C5: a 10 x 10 image is scaled up to 300 x 300. *)
Lemma downscaler_floors_without_minimum_witness :
  (0 < 10 < 2 ^ 32) /\
  (exists scaledWidth scaledHeight : Q,
     Binary64.exact (Binary64.ofZ 10 * ratio 10 10) = Some scaledWidth /\
     Binary64.exact (Binary64.ofZ 10 * ratio 10 10) = Some scaledHeight /\
     canvasWidth 10 10 = Qfloor scaledWidth /\
     canvasHeight 10 10 = Qfloor scaledHeight).
Proof.
  assert (H : 0 < 10 < 2 ^ 32) by (split; reflexivity).
  split; [exact H |].
  exact (proj1 (proj2 (proj2 (downscaler_floors_without_minimum 10 10 H H)))).
Defined.

(** Rounding decides the size: the canvas of a 281 x 281 image is
    299 x 299, the product 281 * (300 / 281) falling just short of 300. *)
Lemma canvas_of_281_square : canvasWidth 281 281 = 299 /\ canvasHeight 281 281 = 299.
Proof. vm_compute. split; reflexivity. Qed.

(** C5, as the specification has it, fails: the canvas of a 1 x 1000 image
    is 0 wide, where a minimum of 1 x 1 would make it 1. *)
Lemma downscaler_minimum_fails :
  canvasWidth 1 1000 = 0 /\ canvasHeight 1 1000 = 300 /\
  ~ (forall width height scaledWidth scaledHeight,
       0 < width -> 0 < height ->
       Binary64.exact (Binary64.ofZ width * ratio width height) = Some scaledWidth ->
       Binary64.exact (Binary64.ofZ height * ratio width height) = Some scaledHeight ->
       canvasWidth width height = Spec.atLeastOne (Qfloor scaledWidth) /\
       canvasHeight width height = Spec.atLeastOne (Qfloor scaledHeight)).
Proof.
  split; [vm_compute; reflexivity | split; [vm_compute; reflexivity |]].
  intros H.
  destruct (Binary64.exact (Binary64.ofZ 1 * ratio 1 1000)) as [pw |] eqn:Epw;
    [| vm_compute in Epw; discriminate].
  destruct (Binary64.exact (Binary64.ofZ 1000 * ratio 1 1000)) as [ph |] eqn:Eph;
    [| vm_compute in Eph; discriminate].
  destruct (H 1 1000 pw ph eq_refl eq_refl Epw Eph) as [Hw _].
  assert (E0 : canvasWidth 1 1000 = 0) by (vm_compute; reflexivity).
  rewrite E0 in Hw. unfold Spec.atLeastOne in Hw. lia.
Qed.

(* ================================================================== *)
(** ** Skipped pixels *)

(** The [continue] is taken exactly when the alpha byte is present and
    below 128, or one of the three colour bytes is absent. *)
Lemma skipped_iff (pixels : list Z) (i : nat) :
  skipped pixels i = true <->
  (exists a, nth_error pixels (i + 3) = Some a /\ a < 128) \/
  nth_error pixels i = None \/ nth_error pixels (i + 1) = None \/
  nth_error pixels (i + 2) = None.
Proof.
  unfold skipped.
  destruct (nth_error pixels (i + 3)) as [a |];
    destruct (nth_error pixels i) as [r |];
    destruct (nth_error pixels (i + 1)) as [g |];
    destruct (nth_error pixels (i + 2)) as [b |];
    cbn [JS.lt JS.isUndefined orb].
  all: try (rewrite ?orb_true_r; split; [intros _; tauto | reflexivity]).
  - rewrite !orb_false_r, Z.ltb_lt. split.
    + intros H. left. exists a. auto.
    + intros [[a' [E H]] | [H | [H | H]]]; try discriminate.
      injection E as <-. exact H.
  - split; [discriminate |].
    intros [[a' [E _]] | [H | [H | H]]]; discriminate.
Qed.

(** A skipped pixel leaves the map as it is. *)
Lemma samplePixel_skipped (pixels : list Z) (i : nat) (m : ColorMap) :
  skipped pixels i = true -> samplePixel pixels i m = m.
Proof. intros H. unfold samplePixel. now rewrite H. Qed.

(** An empty buffer gives no colours. *)
Lemma sortedColors_empty : sortedColors [] = [].
Proof. reflexivity. Qed.

(** A buffer of whole pixels, all of them with alpha below 128, gives no
    colours. *)
Lemma sortedColors_transparent (pixels : list Z) :
  (forall i a, nth_error pixels (i + 3) = Some a -> a < 128) ->
  (length pixels mod 4 = 0)%nat ->
  sortedColors pixels = [].
Proof.
  intros Halpha Hwhole.
  assert (Hscan : scanPixels pixels = []); [| unfold sortedColors; now rewrite Hscan].
  rewrite scanPixels_fold, sampledIndices_stride.
  assert (Hall : forall i, In i (strideIndices (length pixels) 0) -> skipped pixels i = true).
  { intros i Hi. apply strideIndices_In in Hi as [Hlt Hmod].
    apply skipped_iff. left.
    assert (Hin : (i + 3 < length pixels)%nat).
    { pose proof (Nat.div_mod_eq i 16) as Hd. rewrite Hmod in Hd.
      pose proof (Nat.div_mod_eq (length pixels) 4) as Hl. rewrite Hwhole in Hl. lia. }
    apply nth_error_Some in Hin.
    destruct (nth_error pixels (i + 3)) as [a |] eqn:E; [| contradiction].
    exists a. split; [reflexivity | apply (Halpha i a E)]. }
  induction (strideIndices (length pixels) 0) as [| i l IH]; cbn [fold_left].
  - reflexivity.
  - rewrite samplePixel_skipped by (apply Hall; left; reflexivity).
    apply IH. intros j Hj. apply Hall. right. exact Hj.
Qed.





(* ================================================================== *)
(** ** An image of a single colour *)

Lemma solidBuffer_length (n : nat) : length (solidBuffer n) = (4 * n)%nat.
Proof.
  unfold solidBuffer. induction n as [| n IH]; cbn [repeat concat].
  - reflexivity.
  - rewrite length_app, IH. cbn [length]. lia.
Qed.

Lemma solidBuffer_nth (n q k : nat) :
  (q < n)%nat -> (k < 4)%nat ->
  nth_error (solidBuffer n) (4 * q + k) = nth_error [100; 150; 200; 255] k.
Proof.
  unfold solidBuffer. revert q.
  induction n as [| n IH]; intros q Hq Hk; [lia |].
  cbn [repeat concat].
  destruct q as [| q].
  - rewrite nth_error_app1 by (cbn [length]; lia). reflexivity.
  - rewrite nth_error_app2 by (cbn [length]; lia).
    cbn [length].
    replace (4 * S q + k - 4)%nat with (4 * q + k)%nat by lia.
    apply IH; lia.
Qed.

(** On the single-colour buffer every sampled pixel lands in the one
    bucket of key [solidKey]. *)
Lemma samplePixel_solid (n i : nat) (m : ColorMap) :
  In i (strideIndices (4 * n) 0) ->
  samplePixel (solidBuffer n) i m =
  if ColorMapOps.has m solidKey
  then ColorMapOps.incrementCount m solidKey
  else ColorMapOps.set m solidKey (Bucket.mk 100 160 200 1).
Proof.
  intros Hi. apply strideIndices_In in Hi as [Hlt Hmod].
  pose proof (Nat.div_mod_eq i 16) as Hd. rewrite Hmod in Hd.
  remember (i / 16)%nat as q eqn:Eq. clear Eq Hmod.
  assert (Hi : i = (4 * (4 * q))%nat) by lia. clear Hd. subst i.
  assert (Hq : (4 * q < n)%nat) by lia.
  rewrite (samplePixel_survivor _ _ m 100 150 200 255).
  - reflexivity.
  - rewrite <- (Nat.add_0_r (4 * (4 * q))). apply solidBuffer_nth; lia.
  - apply solidBuffer_nth; lia.
  - apply solidBuffer_nth; lia.
  - apply solidBuffer_nth; lia.
  - lia.
Qed.

Lemma scan_solid_from (n : nat) (indices : list nat) (c : Z) :
  (forall i, In i indices -> In i (strideIndices (4 * n) 0)) ->
  fold_left (fun m i => samplePixel (solidBuffer n) i m) indices (solidMap c)
  = solidMap (c + Z.of_nat (length indices)).
Proof.
  revert c.
  induction indices as [| i indices IH]; intros c Hall; cbn [fold_left length].
  - now rewrite Z.add_0_r.
  - rewrite samplePixel_solid by (apply Hall; left; reflexivity).
    change (ColorMapOps.has (solidMap c) solidKey) with true. cbv iota.
    change (ColorMapOps.incrementCount (solidMap c) solidKey) with (solidMap (c + 1)).
    rewrite IH by (intros j Hj; apply Hall; right; exact Hj).
    f_equal. lia.
Qed.

Lemma scan_solid (n : nat) (indices : list nat) :
  (forall i, In i indices -> In i (strideIndices (4 * n) 0)) ->
  indices <> [] ->
  fold_left (fun m i => samplePixel (solidBuffer n) i m) indices []
  = solidMap (Z.of_nat (length indices)).
Proof.
  intros Hall Hne.
  destruct indices as [| i indices]; [contradiction |].
  cbn [fold_left length].
  rewrite samplePixel_solid by (apply Hall; left; reflexivity).
  change (ColorMapOps.has [] solidKey) with false. cbv iota.
  change (ColorMapOps.set [] solidKey (Bucket.mk 100 160 200 1)) with (solidMap 1).
  rewrite scan_solid_from by (intros j Hj; apply Hall; right; exact Hj).
  f_equal. lia.
Qed.

(** The scan of [n >= 1] pixels of the one colour leaves one bucket, which
    has counted every sampled pixel. *)
Lemma scanPixels_solid (n : nat) :
  (0 < n)%nat ->
  scanPixels (solidBuffer n) = solidMap (Z.of_nat (ceilQuarter n)).
Proof.
  intros Hn.
  rewrite scanPixels_fold, solidBuffer_length, sampledIndices_stride.
  rewrite scan_solid.
  - rewrite ceilQuarter_eq. unfold strideIndices. now rewrite length_map, length_seq.
  - auto.
  - rewrite (strideIndices_step (4 * n) 0) by lia. discriminate.
Qed.

(** C7.  A buffer of one or more pixels, every one (100, 150, 200, 255),
    yields exactly one colour: the quantized triple (100, 160, 200)
    encoded as [#64a0c8]. *)
Theorem single_color_buffer_yields_one_color (n : nat) :
  (0 < n)%nat ->
  (grouped 100, grouped 150, grouped 200) = (100, 160, 200) /\
  sortedColors (solidBuffer n) = ["#64a0c8"%string] /\
  sortedColors (solidBuffer n) = [rgbToHex 100 160 200].
Proof.
  intros Hn. unfold sortedColors. rewrite (scanPixels_solid n Hn).
  repeat split.
Qed.

(** The witness of C7: nine pixels, three of them sampled. *)
Lemma single_color_buffer_yields_one_color_witness :
  (0 < 9)%nat /\ sortedColors (solidBuffer 9) = ["#64a0c8"%string].
Proof.
  assert (H : (0 < 9)%nat) by (repeat constructor).
  split; [exact H |].
  exact (proj1 (proj2 (single_color_buffer_yields_one_color 9 H))).
Defined.

(* ================================================================== *)
(** ** Validation of hex codes *)

Lemma withHash_prefix (color : string) : String.prefix "#" (withHash color) = true.
Proof.
  unfold withHash.
  destruct (String.prefix "#" color) eqn:E; [exact E |].
  cbn [String.prefix]. destruct (ascii_dec "#" "#"); [| contradiction].
  destruct color; reflexivity.
Qed.

Lemma withHash_fixed (s : string) : String.prefix "#" s = true -> withHash s = s.
Proof. intros H. unfold withHash. now rewrite H. Qed.

Lemma withHash_idempotent (color : string) : withHash (withHash color) = withHash color.
Proof. apply withHash_fixed, withHash_prefix. Qed.

Lemma isValidHex_withHash (color : string) : isValidHex (withHash color) = isValidHex color.
Proof. unfold isValidHex. now rewrite withHash_idempotent. Qed.

Lemma hexPattern_shape (s : string) :
  hexPattern s = true <->
  exists rest, s = String "#" rest /\
    (String.length rest = 6%nat \/ String.length rest = 3%nat) /\
    allHexDigits rest = true.
Proof.
  unfold hexPattern. split.
  - destruct s as [| c rest]; [discriminate |].
    intros H. apply andb_true_iff in H as [H Hhex].
    apply andb_true_iff in H as [Hc Hlen].
    apply Ascii.eqb_eq in Hc. subst c.
    exists rest. repeat split; [| exact Hhex].
    apply orb_true_iff in Hlen as [Hlen | Hlen]; apply Nat.eqb_eq in Hlen; auto.
  - intros [rest [-> [Hlen Hhex]]].
    rewrite Ascii.eqb_refl, Hhex.
    destruct Hlen as [-> | ->]; reflexivity.
Qed.

Lemma hexPattern_prefix (s : string) : hexPattern s = true -> String.prefix "#" s = true.
Proof.
  intros H. apply hexPattern_shape in H as [rest [-> _]].
  cbn [String.prefix]. destruct (ascii_dec "#" "#"); [| contradiction].
  destruct rest; reflexivity.
Qed.

Lemma normalizeHex_Some (text : string) :
  normalizeHex (Some text) = if isValidHex text then withHash text else EmptyString.
Proof.
  unfold normalizeHex, isFalsy.
  destruct (String.eqb text EmptyString) eqn:E.
  - apply String.eqb_eq in E. subst text. reflexivity.
  - rewrite isValidHex_withHash. reflexivity.
Qed.

Lemma isValidHex_nonempty (text : string) :
  isValidHex text = true -> withHash text <> EmptyString.
Proof.
  unfold isValidHex. intros H E. rewrite E in H. discriminate.
Qed.

(** X1.  [normalizeHex] returns the empty string or a [#] followed by three
    or six hex digits.  It returns a code exactly for the strings that
    [isValidHex] accepts, and the code is then the string itself, with a
    [#] put in front if it had none. *)
Theorem normalizeHex_accepts_what_isValidHex_accepts (color : option string) :
  (normalizeHex color = EmptyString \/
   exists digits, normalizeHex color = String "#" digits /\
     (String.length digits = 6%nat \/ String.length digits = 3%nat) /\
     allHexDigits digits = true) /\
  (normalizeHex color <> EmptyString <->
   exists text, color = Some text /\ isValidHex text = true) /\
  (forall text, color = Some text -> isValidHex text = true ->
     normalizeHex color = withHash text).
Proof.
  destruct color as [text |].
  - rewrite normalizeHex_Some.
    destruct (isValidHex text) eqn:V.
    + split; [| split].
      * right. unfold isValidHex in V. apply hexPattern_shape in V. exact V.
      * split; [intros _; exists text; auto | intros _; now apply isValidHex_nonempty].
      * intros text' E _. injection E as <-. reflexivity.
    + split; [left; reflexivity | split].
      * split; [intros H; contradiction |].
        intros [text' [E V']]. injection E as <-. congruence.
      * intros text' E V'. injection E as <-. congruence.
  - split; [left; reflexivity | split].
    + split; [intros H; contradiction | intros [text [E _]]; discriminate].
    + intros text E. discriminate.
Qed.

Lemma normalizeHex_result (color : option string) :
  normalizeHex color <> EmptyString ->
  isValidHex (normalizeHex color) = true /\
  normalizeHex (Some (normalizeHex color)) = normalizeHex color.
Proof.
  destruct color as [text |]; [| intros H; contradiction].
  rewrite (normalizeHex_Some text).
  destruct (isValidHex text) eqn:V; [intros _ | intros H; contradiction].
  rewrite (normalizeHex_Some (withHash text)), isValidHex_withHash, V, withHash_idempotent.
  auto.
Qed.

(** X2.  Normalizing is idempotent, and a code it returns is one that
    [isValidHex] accepts. *)
Theorem normalizeHex_idempotent (color : option string) :
  normalizeHex (Some (normalizeHex color)) = normalizeHex color /\
  (normalizeHex color <> EmptyString -> isValidHex (normalizeHex color) = true).
Proof.
  destruct color as [text |]; [| split; [reflexivity | intros H; contradiction]].
  rewrite (normalizeHex_Some text).
  destruct (isValidHex text) eqn:V.
  - rewrite (normalizeHex_Some (withHash text)), isValidHex_withHash, V, withHash_idempotent.
    split; [reflexivity | intros _; reflexivity].
  - split; [reflexivity | intros H; contradiction].
Qed.

Lemma allLowerHex_allHexDigits (s : string) :
  Spec.allLowerHex s = true -> allHexDigits s = true.
Proof.
  induction s as [| c s IH]; cbn [Spec.allLowerHex allHexDigits]; [reflexivity |].
  intros H. apply andb_true_iff in H as [Hc Hs].
  rewrite (IH Hs), andb_true_r.
  unfold Spec.isLowerHexDigit in Hc. unfold isHexDigit.
  apply orb_true_iff in Hc as [Hc | Hc]; rewrite Hc; [reflexivity | apply orb_true_r].
Qed.

Lemma isHexColor_isValidHex (s : string) :
  Spec.isHexColor s = true -> isValidHex s = true /\ normalizeHex (Some s) = s.
Proof.
  intros H.
  assert (Hpat : hexPattern s = true).
  { destruct s as [| c rest]; [discriminate |].
    unfold Spec.isHexColor in H. unfold hexPattern.
    apply andb_true_iff in H as [H Hhex].
    apply andb_true_iff in H as [Hc Hlen].
    rewrite Hc, Hlen, (allLowerHex_allHexDigits _ Hhex). reflexivity. }
  assert (Hfix : withHash s = s) by apply withHash_fixed, hexPattern_prefix, Hpat.
  assert (Hvalid : isValidHex s = true) by (unfold isValidHex; now rewrite Hfix).
  split; [exact Hvalid |].
  now rewrite normalizeHex_Some, Hvalid.
Qed.

Lemma exportPalette_fixed (codes : list string) :
  Forall (fun s => Spec.isHexColor s = true) codes ->
  exportPalette (map Some codes) = codes.
Proof.
  unfold exportPalette.
  induction 1 as [| s codes Hs Hcodes IH]; cbn [map filter]; [reflexivity |].
  destruct (isHexColor_isValidHex s Hs) as [Hvalid Hnorm].
  rewrite Hnorm.
  destruct (String.eqb s EmptyString) eqn:E.
  - apply String.eqb_eq in E. subst s. discriminate.
  - cbn [negb map]. rewrite Hnorm, IH. reflexivity.
Qed.

(** X3.  Whatever [rgbToHex] returns is a code the palette accepts as it
    is, and so is every extracted colour: a palette that holds the
    extracted colours, in order, exports exactly them. *)
Theorem extracted_colors_pass_validation (r g b : Q) (pixels : list Z) :
  isValidHex (rgbToHex r g b) = true /\
  normalizeHex (Some (rgbToHex r g b)) = rgbToHex r g b /\
  Forall (fun s => isValidHex s = true /\ normalizeHex (Some s) = s) (sortedColors pixels) /\
  exportPalette (map Some (sortedColors pixels)) = sortedColors pixels.
Proof.
  pose proof (isHexColor_isValidHex _ (rgbToHex_isHexColor r g b)) as [Hv Hn].
  split; [exact Hv | split; [exact Hn | split]].
  - eapply Forall_impl; [| apply encodeTop_hex].
    intros s Hs. apply isHexColor_isValidHex, Hs.
  - apply exportPalette_fixed, encodeTop_hex.
Qed.

(* ================================================================== *)
(** ** Export *)

Lemma exportPalette_filter_map (colors : Colors) :
  exportPalette colors =
  filter (fun code => negb (String.eqb code EmptyString)) (map normalizeHex colors).
Proof.
  unfold exportPalette.
  induction colors as [| c colors IH]; cbn [filter map]; [reflexivity |].
  destruct (String.eqb (normalizeHex c) EmptyString); cbn [negb map]; now rewrite IH.
Qed.

(** X4.  The exported list holds, in palette order, the normalized code of
    every slot that has a valid one and nothing else: each entry is
    accepted by [isValidHex] and is its own normal form, there are no more
    entries than slots, and exporting the exported list again changes
    nothing. *)
Theorem exportPalette_keeps_valid_codes (colors : Colors) :
  exportPalette colors =
    filter (fun code => negb (String.eqb code EmptyString)) (map normalizeHex colors) /\
  Forall (fun code => code <> EmptyString /\ isValidHex code = true /\
                      normalizeHex (Some code) = code) (exportPalette colors) /\
  (length (exportPalette colors) <= length colors)%nat /\
  exportPalette (map Some (exportPalette colors)) = exportPalette colors.
Proof.
  assert (Hall : Forall (fun code => code <> EmptyString /\ isValidHex code = true /\
                                     normalizeHex (Some code) = code)
                        (exportPalette colors)).
  { rewrite exportPalette_filter_map. apply Forall_forall.
    intros code Hin. apply filter_In in Hin as [Hin Hne].
    apply in_map_iff in Hin as [c [<- _]].
    assert (Hne' : normalizeHex c <> EmptyString).
    { intros E. rewrite E in Hne. discriminate. }
    destruct (normalizeHex_result c Hne') as [Hvalid Hidem].
    auto. }
  split; [apply exportPalette_filter_map | split; [exact Hall | split]].
  - rewrite exportPalette_filter_map.
    rewrite <- (length_map normalizeHex colors). apply filter_length_le.
  - induction Hall as [| code codes (Hne & Hv & Hn) _ IH]; [reflexivity |].
    unfold exportPalette in *. cbn [map filter]. rewrite Hn.
    destruct (String.eqb code EmptyString) eqn:E.
    + apply String.eqb_eq in E. contradiction.
    + cbn [negb map]. rewrite Hn, IH. reflexivity.
Qed.

(* ================================================================== *)
(** ** The handlers of the palette *)

Lemma arrayStore_length (array : Colors) (index : nat) (value : string) :
  length (arrayStore array index value) = Nat.max (length array) (S index).
Proof.
  unfold arrayStore.
  destruct (index <? length array)%nat eqn:E.
  - apply Nat.ltb_lt in E.
    rewrite length_app, length_firstn. cbn [length]. rewrite length_skipn. lia.
  - apply Nat.ltb_ge in E.
    rewrite !length_app, repeat_length. cbn [length]. lia.
Qed.

Lemma arrayStore_same (array : Colors) (index : nat) (value : string) :
  nth_error (arrayStore array index value) index = Some (Some value).
Proof.
  unfold arrayStore.
  destruct (index <? length array)%nat eqn:E.
  - apply Nat.ltb_lt in E.
    rewrite nth_error_app2 by (rewrite length_firstn; lia).
    rewrite length_firstn.
    replace (index - Nat.min index (length array))%nat with 0%nat by lia.
    reflexivity.
  - apply Nat.ltb_ge in E.
    rewrite nth_error_app2 by lia.
    rewrite nth_error_app2 by (rewrite repeat_length; lia).
    rewrite repeat_length.
    replace (index - length array - (index - length array))%nat with 0%nat by lia.
    reflexivity.
Qed.

Lemma arrayStore_other (array : Colors) (index j : nat) (value : string) :
  (j < length array)%nat -> j <> index ->
  nth_error (arrayStore array index value) j = nth_error array j.
Proof.
  intros Hj Hne. unfold arrayStore.
  destruct (index <? length array)%nat eqn:E.
  - apply Nat.ltb_lt in E.
    destruct (Nat.lt_ge_cases j index) as [Hlt | Hge].
    + rewrite nth_error_app1 by (rewrite length_firstn; lia).
      rewrite nth_error_firstn.
      apply Nat.ltb_lt in Hlt. now rewrite Hlt.
    + rewrite nth_error_app2 by (rewrite length_firstn; lia).
      rewrite length_firstn.
      replace (j - Nat.min index (length array))%nat with (S (j - S index)) by lia.
      cbn [nth_error]. rewrite nth_error_skipn. f_equal. lia.
  - rewrite nth_error_app1 by lia. reflexivity.
Qed.

Lemma arrayStore_defined (array : Colors) (index : nat) (value : string) :
  (index < length array)%nat ->
  Forall (fun c => c <> None) array ->
  Forall (fun c => c <> None) (arrayStore array index value).
Proof.
  intros Hi Hall. unfold arrayStore.
  apply Nat.ltb_lt in Hi. rewrite Hi.
  rewrite <- (firstn_skipn index array) in Hall.
  apply Forall_app in Hall as [Hfirst Hrest].
  apply Forall_app. split; [exact Hfirst |].
  constructor; [discriminate |].
  rewrite <- (firstn_skipn 1 (skipn index array)) in Hrest.
  apply Forall_app in Hrest as [_ Hrest].
  rewrite skipn_skipn in Hrest. exact Hrest.
Qed.

Lemma findIndex_Some {A : Type} (p : A -> bool) (array : list A) (k : nat) :
  findIndex p array = Some k ->
  (k < length array)%nat /\
  (exists x, nth_error array k = Some x /\ p x = true) /\
  (forall j y, (j < k)%nat -> nth_error array j = Some y -> p y = false).
Proof.
  revert k.
  induction array as [| x rest IH]; intros k; cbn [findIndex]; [discriminate |].
  destruct (p x) eqn:Px.
  - intros E. injection E as <-.
    split; [cbn [length]; lia | split].
    + exists x. auto.
    + intros j y Hj. lia.
  - destruct (findIndex p rest) as [k' |]; [| discriminate].
    intros E. injection E as <-.
    destruct (IH k' eq_refl) as (Hlt & Hat & Hbefore).
    split; [cbn [length]; lia | split].
    + exact Hat.
    + intros [| j] y Hj Hy; cbn [nth_error] in Hy.
      * injection Hy as <-. exact Px.
      * apply (Hbefore j y); [lia | exact Hy].
Qed.

Lemma findIndex_None {A : Type} (p : A -> bool) (array : list A) :
  findIndex p array = None <-> Forall (fun x => p x = false) array.
Proof.
  induction array as [| x rest IH]; cbn [findIndex].
  - split; [constructor | reflexivity].
  - destruct (p x) eqn:Px.
    + split; [discriminate |].
      intros H. inversion H; subst. congruence.
    + destruct (findIndex p rest) as [k |]; cbn [option_map].
      * split; [discriminate |].
        intros H. inversion H as [| ? ? _ Hrest]; subst.
        apply IH in Hrest. discriminate.
      * split; [| reflexivity].
        intros _. constructor; [exact Px | now apply IH].
Qed.

Lemma arrayStore_in_range (array : Colors) (index : nat) (value : string) :
  (index < length array)%nat ->
  length (arrayStore array index value) = length array /\
  nth_error (arrayStore array index value) index = Some (Some value) /\
  (forall j, j <> index -> nth_error (arrayStore array index value) j = nth_error array j).
Proof.
  intros Hi.
  pose proof (arrayStore_length array index value) as Hlen.
  split; [lia | split; [apply arrayStore_same |]].
  intros j Hj.
  destruct (Nat.lt_ge_cases j (length array)) as [Hlt | Hge].
  - now apply arrayStore_other.
  - rewrite (proj2 (nth_error_None array j)) by lia.
    apply nth_error_None. lia.
Qed.

(** X5.  [handleColorChange] and [addColorFromPicker], called for a row of
    the table, write the one slot of that row: the palette keeps its
    length, the slot holds the new text, every other slot is as it was. *)
Theorem row_handlers_write_one_slot
  (colors : Colors) (index : nat) (value : string) :
  (index < length colors)%nat ->
  let changed := commit colors (handleColorChange colors index value) in
  let picked := commit colors (addColorFromPicker colors value index) in
  picked = changed /\
  length changed = length colors /\
  nth_error changed index = Some (Some value) /\
  (forall j, j <> index -> nth_error changed j = nth_error colors j).
Proof.
  intros Hi. cbv zeta.
  unfold commit, handleColorChange, addColorFromPicker. cbn [setColors].
  split; [reflexivity |].
  apply arrayStore_in_range, Hi.
Qed.

(** The witness of X5: the third row of the initial palette. *)
Lemma row_handlers_write_one_slot_witness :
  (2 < length emptyPalette)%nat /\
  nth_error (commit emptyPalette (handleColorChange emptyPalette 2 "3b82f6")) 2
  = Some (Some "3b82f6"%string).
Proof.
  assert (H : (2 < length emptyPalette)%nat) by (cbn; repeat constructor).
  split; [exact H |].
  exact (proj1 (proj2 (proj2 (row_handlers_write_one_slot emptyPalette 2 "3b82f6" H)))).
Defined.

(** X6.  [addExtractedColor], called with a colour alone, writes it into
    the first slot that is empty or undefined, keeps the length of the
    palette and every other slot, and shows "Color added"; when no slot is
    empty it calls [setColors] not at all and shows "Palette full". *)
Theorem addExtractedColor_fills_first_empty_slot (colors : Colors) (color : string) :
  match findIndex isFalsy colors with
  | Some k =>
      (k < length colors)%nat /\
      (exists c, nth_error colors k = Some c /\ isFalsy c = true) /\
      (forall j c, (j < k)%nat -> nth_error colors j = Some c -> isFalsy c = false) /\
      (exists colors',
         addExtractedColor colors color None
           = mkEffects (Some colors') (Some "Color added"%string) None /\
         length colors' = length colors /\
         nth_error colors' k = Some (Some color) /\
         (forall j, j <> k -> nth_error colors' j = nth_error colors j))
  | None =>
      Forall (fun c => isFalsy c = false) colors /\
      addExtractedColor colors color None
        = mkEffects None (Some "Palette full"%string) None /\
      commit colors (addExtractedColor colors color None) = colors
  end.
Proof.
  unfold addExtractedColor.
  destruct (findIndex isFalsy colors) as [k |] eqn:E.
  - destruct (findIndex_Some _ _ _ E) as (Hk & Hat & Hbefore).
    split; [exact Hk | split; [exact Hat | split; [exact Hbefore |]]].
    exists (arrayStore colors k color).
    destruct (arrayStore_in_range colors k color Hk) as (Hlen & Hsame & Hother).
    split; [reflexivity | split; [exact Hlen | split; [exact Hsame | exact Hother]]].
  - split; [now apply findIndex_None | split; reflexivity].
Qed.

Lemma commitAll_stores (colors : Colors) (k : nat) (codes : list string) (state : Colors) :
  fold_left commit
    (map (fun color => mkEffects (Some (arrayStore colors k color))
                                 (Some "Color added"%string) None) codes) state
  = match codes with
    | [] => state
    | _ :: _ => arrayStore colors k (last codes EmptyString)
    end.
Proof.
  revert state.
  induction codes as [| code codes IH]; intros state; [reflexivity |].
  cbn [map fold_left]. rewrite IH.
  unfold commit at 1. cbn [setColors].
  destruct codes; reflexivity.
Qed.

Lemma commitAll_nothing (colors : Colors) (codes : list string) :
  fold_left commit
    (map (fun _ : string => mkEffects None (Some "Palette full"%string) None) codes) colors
  = colors.
Proof.
  induction codes as [| code codes IH]; [reflexivity |].
  cbn [map fold_left]. exact IH.
Qed.

(** X7.  "Add All Colors" adds one colour only.  Every call of
    [addExtractedColor] in the loop starts from the same [colors] and aims
    at the same slot, so the state that results is the one that adding the
    last extracted colour alone gives. *)
Theorem addAllColors_adds_only_the_last (colors : Colors) (extractedColors : list string) :
  commitAll colors (addAllColors colors extractedColors)
  = match extractedColors with
    | [] => colors
    | _ :: _ =>
        commit colors
          (addExtractedColor colors (last extractedColors EmptyString) None)
    end.
Proof.
  unfold commitAll, addAllColors, addExtractedColor.
  destruct (findIndex isFalsy colors) as [k |].
  - rewrite commitAll_stores. destruct extractedColors; reflexivity.
  - rewrite commitAll_nothing. destruct extractedColors; reflexivity.
Qed.

Lemma uiStep_invariant (colors colors' : Colors) :
  uiStep colors colors' ->
  length colors = 10%nat /\ Forall (fun c => c <> None) colors ->
  length colors' = 10%nat /\ Forall (fun c => c <> None) colors'.
Proof.
  intros Hstep [Hlen Hdef].
  assert (Hstore : forall k v, (k < length colors)%nat ->
            length (arrayStore colors k v) = 10%nat /\
            Forall (fun c => c <> None) (arrayStore colors k v)).
  { intros k v Hk. split; [rewrite arrayStore_length; lia | now apply arrayStore_defined]. }
  assert (Hadd : forall color,
            length (commit colors (addExtractedColor colors color None)) = 10%nat /\
            Forall (fun c => c <> None) (commit colors (addExtractedColor colors color None))).
  { intros color. unfold addExtractedColor.
    destruct (findIndex isFalsy colors) as [k |] eqn:E; unfold commit; cbn [setColors].
    - apply Hstore. now apply findIndex_Some in E.
    - auto. }
  destruct Hstep as [index value Hi | index picker Hi | picker | color | codes |].
  - apply (Hstore index value Hi).
  - apply (Hstore index picker Hi).
  - unfold addToNext.
    destruct (findIndex isFalsy colors) as [k |] eqn:E.
    + apply (Hstore k picker). now apply findIndex_Some in E.
    + unfold commit. cbn [setColors]. auto.
  - apply Hadd.
  - unfold commitAll, addAllColors, addExtractedColor.
    destruct (findIndex isFalsy colors) as [k |] eqn:E.
    + rewrite commitAll_stores.
      destruct codes; [auto |].
      apply Hstore. now apply findIndex_Some in E.
    + rewrite commitAll_nothing. auto.
  - unfold commit, clearAll. cbn [setColors].
    split; [reflexivity |].
    unfold emptyPalette. apply Forall_forall.
    intros c Hc. apply repeat_spec in Hc. subst c. discriminate.
Qed.

(** X8.  Whatever the user does on the page, the palette has ten slots and
    none of them is undefined. *)
Theorem palette_always_has_ten_slots (colors : Colors) :
  reachable colors ->
  length colors = 10%nat /\ Forall (fun c => c <> None) colors.
Proof.
  induction 1 as [| colors colors' _ IH Hstep].
  - split; [reflexivity |].
    unfold emptyPalette. apply Forall_forall.
    intros c Hc. apply repeat_spec in Hc. subst c. discriminate.
  - apply (uiStep_invariant colors colors' Hstep IH).
Qed.

(** The witness of X8: the palette after one extracted colour was added. *)
Lemma palette_always_has_ten_slots_witness :
  reachable (commit emptyPalette (addExtractedColor emptyPalette "#64a0c8" None)) /\
  length (commit emptyPalette (addExtractedColor emptyPalette "#64a0c8" None)) = 10%nat.
Proof.
  assert (H : reachable (commit emptyPalette (addExtractedColor emptyPalette "#64a0c8" None)))
    by exact (reachStep _ _ reachInitial (stepAddExtracted emptyPalette "#64a0c8")).
  split; [exact H |].
  exact (proj1 (palette_always_has_ten_slots _ H)).
Defined.

(* ================================================================== *)
(** ** Keys of the frequency map *)

Lemma quantized_index (v : Z) :
  Spec.isQuantized v -> exists k, 0 <= k < Z.of_nat 14 /\ v = 20 * k.
Proof.
  intros [Hrange Hmod]. exists (v / 20).
  pose proof (Z.div_mod v 20 ltac:(lia)) as Hd. lia.
Qed.

Lemma toString10_noDash (v : Z) :
  Spec.isQuantized v -> noDash (JS.toString 10 v) = true.
Proof.
  intros Hv. destruct (quantized_index v Hv) as [k [Hk ->]].
  clear Hv. revert k Hk.
  apply (forall_below (fun k => noDash (JS.toString 10 (20 * k))) 14).
  vm_compute. reflexivity.
Qed.

Lemma toString10_injective (u v : Z) :
  Spec.isQuantized u -> Spec.isQuantized v ->
  JS.toString 10 u = JS.toString 10 v -> u = v.
Proof.
  intros Hu Hv H.
  destruct (quantized_index u Hu) as [j [Hj ->]].
  destruct (quantized_index v Hv) as [k [Hk ->]].
  assert (Hall : forall a, 0 <= a < Z.of_nat 14 ->
            forallb (fun b => implb (String.eqb (JS.toString 10 (20 * a))
                                                (JS.toString 10 (20 * b))) (a =? b))
                    (map Z.of_nat (seq 0 14)) = true).
  { apply (forall_below (fun a =>
      forallb (fun b => implb (String.eqb (JS.toString 10 (20 * a))
                                          (JS.toString 10 (20 * b))) (a =? b))
              (map Z.of_nat (seq 0 14))) 14).
    vm_compute. reflexivity. }
  pose proof (forall_below _ 14 (Hall j Hj) k Hk) as Hjk.
  cbv beta in Hjk.
  apply String.eqb_eq in H. rewrite H in Hjk.
  apply Z.eqb_eq in Hjk. now subst.
Qed.

Lemma append_dash_split (s1 s2 t1 t2 : string) :
  noDash s1 = true -> noDash s2 = true ->
  (s1 ++ String "-" t1 = s2 ++ String "-" t2)%string -> s1 = s2 /\ t1 = t2.
Proof.
  revert s2.
  induction s1 as [| c s1 IH]; intros [| d s2] H1 H2 H; cbn [append noDash] in *.
  - injection H as H. auto.
  - injection H as Hc _. subst d. discriminate.
  - injection H as Hc _. subst c. discriminate.
  - injection H as -> H.
    apply andb_true_iff in H1 as [_ H1]. apply andb_true_iff in H2 as [_ H2].
    destruct (IH s2 H1 H2 H) as [-> ->]. auto.
Qed.

(** Distinct triples of quantized values have distinct keys. *)
Lemma tripleKey_injective (t1 t2 : Z * Z * Z) :
  quantizedTriple t1 -> quantizedTriple t2 -> tripleKey t1 = tripleKey t2 -> t1 = t2.
Proof.
  destruct t1 as [[r1 g1] b1], t2 as [[r2 g2] b2].
  intros (Hr1 & Hg1 & Hb1) (Hr2 & Hg2 & Hb2) H.
  unfold tripleKey, colorKey in H.
  change ("-" ++ ?x)%string with (String "-" x) in H.
  cbn [append] in H.
  apply append_dash_split in H as [Hr H]; try now apply toString10_noDash.
  apply append_dash_split in H as [Hg Hb]; try now apply toString10_noDash.
  apply toString10_injective in Hr, Hg, Hb; try assumption.
  congruence.
Qed.

(* ================================================================== *)
(** ** Lookups in the frequency map *)

Lemma has_false_get (m : ColorMap) (k : string) :
  ColorMapOps.has m k = false <-> ColorMapOps.get m k = None.
Proof.
  pose proof (has_get m k) as H.
  destruct (ColorMapOps.has m k).
  - destruct (proj1 H eq_refl) as [v Hv]. rewrite Hv. split; discriminate.
  - split; [| reflexivity]. intros _.
    destruct (ColorMapOps.get m k) as [v |]; [| reflexivity].
    assert (false = true) by (apply H; now exists v). discriminate.
Qed.

Lemma get_app (m l : ColorMap) (k : string) :
  ColorMapOps.get (m ++ l) k =
  match ColorMapOps.get m k with
  | Some v => Some v
  | None => ColorMapOps.get l k
  end.
Proof.
  induction m as [| [k' v] m IH]; cbn [app ColorMapOps.get]; [reflexivity |].
  destruct (String.eqb k' k); [reflexivity | exact IH].
Qed.

Lemma get_set_fresh (m : ColorMap) (k k' : string) (v : Bucket.t) :
  ColorMapOps.has m k' = false ->
  ColorMapOps.get (ColorMapOps.set m k' v) k =
  if String.eqb k' k then
    match ColorMapOps.get m k with Some old => Some old | None => Some v end
  else ColorMapOps.get m k.
Proof.
  intros Hfresh. rewrite (set_fresh _ _ _ Hfresh), get_app.
  cbn [ColorMapOps.get].
  destruct (String.eqb k' k); destruct (ColorMapOps.get m k); reflexivity.
Qed.

Lemma get_incrementCount_other (m : ColorMap) (k k' : string) :
  String.eqb k' k = false ->
  ColorMapOps.get (ColorMapOps.incrementCount m k') k = ColorMapOps.get m k.
Proof.
  intros Hne.
  induction m as [| [k0 v] m IH]; cbn [ColorMapOps.incrementCount ColorMapOps.get].
  - reflexivity.
  - destruct (String.eqb k0 k') eqn:E0; cbn [ColorMapOps.get].
    + apply String.eqb_eq in E0. subst k0. rewrite Hne. reflexivity.
    + destruct (String.eqb k0 k); [reflexivity | exact IH].
Qed.

Lemma tripleEqb_eq (s t : Z * Z * Z) : tripleEqb s t = true <-> s = t.
Proof.
  destruct s as [[r1 g1] b1], t as [[r2 g2] b2]. unfold tripleEqb.
  rewrite !andb_true_iff, !Z.eqb_eq. split.
  - intros [[-> ->] ->]. reflexivity.
  - intros E. injection E as -> -> ->. auto.
Qed.

Lemma bucketOf_succ (t : Z * Z * Z) (c : nat) (e : Bucket.t) :
  bucketOf t c = Some e ->
  bucketOf t (c + 1) =
  Some (Bucket.mk (Bucket.r e) (Bucket.g e) (Bucket.b e) (Bucket.count e + 1)).
Proof.
  destruct t as [[r g] b]. destruct c as [| c]; [discriminate |].
  cbn [bucketOf]. intros E. injection E as <-.
  replace (S c + 1)%nat with (S (S c)) by lia.
  cbn [bucketOf Bucket.r Bucket.g Bucket.b Bucket.count].
  do 2 f_equal. lia.
Qed.

Lemma bucketOf_None (t : Z * Z * Z) (c : nat) : bucketOf t c = None -> c = 0%nat.
Proof. destruct t as [[r g] b]. destruct c; [reflexivity | discriminate]. Qed.

(** One iteration changes the bucket of a group exactly when the pixel is
    counted in that group. *)
Lemma samplePixel_get (pixels : list Z) (i : nat) (m : ColorMap) (t : Z * Z * Z) (c : nat) :
  Forall Spec.isByte pixels -> quantizedTriple t ->
  ColorMapOps.get m (tripleKey t) = bucketOf t c ->
  ColorMapOps.get (samplePixel pixels i m) (tripleKey t)
  = bucketOf t (c + (if countedIn pixels t i then 1 else 0)).
Proof.
  intros Hbytes Ht Hget.
  assert (Hbyte : forall j v, nth_error pixels j = Some v -> Spec.isByte v).
  { intros j v Hj. rewrite Forall_forall in Hbytes.
    apply Hbytes. eapply nth_error_In, Hj. }
  unfold samplePixel, countedIn, groupAt.
  destruct (skipped pixels i); cbn [negb andb]; [now rewrite Nat.add_0_r |].
  destruct (nth_error pixels i) as [r |] eqn:Hr; [| now rewrite Nat.add_0_r].
  destruct (nth_error pixels (i + 1)) as [g |] eqn:Hg; [| now rewrite Nat.add_0_r].
  destruct (nth_error pixels (i + 2)) as [b |] eqn:Hb; [| now rewrite Nat.add_0_r].
  cbv zeta.
  set (s := (grouped r, grouped g, grouped b)).
  assert (Hs : quantizedTriple s).
  { unfold s. cbn [quantizedTriple]. repeat split; apply grouped_quantized; eauto. }
  change (colorKey (grouped r) (grouped g) (grouped b)) with (tripleKey s).
  destruct (tripleEqb s t) eqn:Est.
  - apply tripleEqb_eq in Est.
    destruct (ColorMapOps.has m (tripleKey s)) eqn:Hhas.
    + rewrite Est in *. rewrite get_incrementCount.
      apply has_get in Hhas as [e He]. rewrite He in *. cbn [option_map].
      symmetry. now apply bucketOf_succ.
    + rewrite get_set_fresh by exact Hhas.
      rewrite Est in *. rewrite String.eqb_refl.
      apply has_false_get in Hhas. rewrite Hhas in *.
      symmetry in Hget. apply bucketOf_None in Hget. subst c.
      unfold s in Est. rewrite <- Est. reflexivity.
  - assert (Hkey : String.eqb (tripleKey s) (tripleKey t) = false).
    { apply String.eqb_neq. intros E.
      apply (tripleKey_injective s t Hs Ht) in E.
      apply tripleEqb_eq in E. congruence. }
    rewrite Nat.add_0_r.
    destruct (ColorMapOps.has m (tripleKey s)) eqn:Hhas.
    + now rewrite get_incrementCount_other.
    + rewrite get_set_fresh by exact Hhas. now rewrite Hkey.
Qed.

Lemma fold_samplePixel_get
  (pixels : list Z) (indices : list nat) (m : ColorMap) (t : Z * Z * Z) (c : nat) :
  Forall Spec.isByte pixels -> quantizedTriple t ->
  ColorMapOps.get m (tripleKey t) = bucketOf t c ->
  ColorMapOps.get (fold_left (fun m i => samplePixel pixels i m) indices m) (tripleKey t)
  = bucketOf t (c + length (filter (countedIn pixels t) indices)).
Proof.
  intros Hbytes Ht. revert m c.
  induction indices as [| i indices IH]; intros m c Hget; cbn [fold_left filter].
  - now rewrite Nat.add_0_r.
  - rewrite (IH _ _ (samplePixel_get pixels i m t c Hbytes Ht Hget)).
    f_equal. destruct (countedIn pixels t i); cbn [length]; lia.
Qed.

(** X9.  After the scan of a buffer of bytes, the map holds under the key
    of a group the bucket of that group with, as its count, the number of
    sampled pixels that are not skipped and fall in the group; it holds
    nothing under the key of a group no such pixel falls in. *)
Theorem scan_counts_each_group (pixels : list Z) (t : Z * Z * Z) :
  Forall Spec.isByte pixels -> quantizedTriple t ->
  ColorMapOps.get (scanPixels pixels) (tripleKey t) = bucketOf t (frequency pixels t).
Proof.
  intros Hbytes Ht. rewrite scanPixels_fold. unfold frequency.
  apply (fold_samplePixel_get pixels _ [] t 0 Hbytes Ht).
  destruct t as [[r g] b]. reflexivity.
Qed.

(** The witness of X9: two sampled pixels of one group, sixteen bytes
    apart. *)
Lemma scan_counts_each_group_witness :
  (Forall Spec.isByte (solidBuffer 5) /\ quantizedTriple (100, 160, 200)) /\
  ColorMapOps.get (scanPixels (solidBuffer 5)) (tripleKey (100, 160, 200))
  = bucketOf (100, 160, 200) (frequency (solidBuffer 5) (100, 160, 200)).
Proof.
  assert (Hbytes : Forall Spec.isByte (solidBuffer 5))
    by (unfold Spec.isByte; repeat constructor; lia).
  assert (Ht : quantizedTriple (100, 160, 200))
    by (unfold quantizedTriple, Spec.isQuantized; repeat split; lia).
  split; [exact (conj Hbytes Ht) |].
  exact (scan_counts_each_group _ _ Hbytes Ht).
Defined.

(* ================================================================== *)
(** ** Counts add up *)

Lemma totalCount_app (m l : ColorMap) : totalCount (m ++ l) = totalCount m + totalCount l.
Proof.
  unfold totalCount.
  induction m as [| e m IH]; cbn [app fold_right]; [reflexivity | rewrite IH; lia].
Qed.

Lemma totalCount_incrementCount (m : ColorMap) (k : string) :
  ColorMapOps.has m k = true ->
  totalCount (ColorMapOps.incrementCount m k) = totalCount m + 1.
Proof.
  unfold ColorMapOps.has, totalCount.
  induction m as [| [k' v] m IH]; cbn [existsb ColorMapOps.incrementCount fst]; [discriminate |].
  destruct (String.eqb k' k); cbn [orb fold_right snd Bucket.count].
  - intros _. lia.
  - intros H. rewrite (IH H). lia.
Qed.

Lemma incrementCount_positive (m : ColorMap) (k : string) :
  Forall (fun e => 1 <= Bucket.count (snd e)) m ->
  Forall (fun e => 1 <= Bucket.count (snd e)) (ColorMapOps.incrementCount m k).
Proof.
  induction 1 as [| [k' v] m Hv Hm IH]; cbn [ColorMapOps.incrementCount]; [constructor |].
  destruct (String.eqb k' k); constructor; try assumption.
  cbn [snd Bucket.count] in *. lia.
Qed.

Lemma incrementCount_length (m : ColorMap) (k : string) :
  length (ColorMapOps.incrementCount m k) = length m.
Proof. rewrite <- (length_map fst), incrementCount_keys. apply length_map. Qed.

Lemma skipped_false_defined (pixels : list Z) (i : nat) :
  skipped pixels i = false ->
  exists r g b, nth_error pixels i = Some r /\ nth_error pixels (i + 1) = Some g /\
                nth_error pixels (i + 2) = Some b.
Proof.
  unfold skipped.
  destruct (nth_error pixels i) as [r |], (nth_error pixels (i + 1)) as [g |],
           (nth_error pixels (i + 2)) as [b |]; cbn [JS.isUndefined];
    rewrite ?orb_true_r; try discriminate.
  intros _. exists r, g, b. auto.
Qed.

(** One iteration adds one to the sum of the counts when the pixel is not
    skipped, and nothing when it is. *)
Lemma samplePixel_total (pixels : list Z) (i : nat) (m : ColorMap) :
  Forall (fun e => 1 <= Bucket.count (snd e)) m ->
  totalCount (samplePixel pixels i m)
    = totalCount m + (if skipped pixels i then 0 else 1) /\
  Forall (fun e => 1 <= Bucket.count (snd e)) (samplePixel pixels i m) /\
  (length m <= length (samplePixel pixels i m))%nat.
Proof.
  intros Hpos. unfold samplePixel.
  destruct (skipped pixels i) eqn:Hskip; [split; [lia | split; [exact Hpos | lia]] |].
  destruct (skipped_false_defined _ _ Hskip) as (r & g & b & -> & -> & ->).
  cbv zeta.
  destruct (ColorMapOps.has m _) eqn:Hhas.
  - split; [now apply totalCount_incrementCount | split].
    + now apply incrementCount_positive.
    + rewrite incrementCount_length. lia.
  - rewrite (set_fresh _ _ _ Hhas). split; [| split].
    + rewrite totalCount_app. unfold totalCount at 2.
      cbn [fold_right snd Bucket.count]. lia.
    + apply Forall_app. split; [exact Hpos |].
      constructor; [cbn [snd Bucket.count]; lia | constructor].
    + rewrite length_app. lia.
Qed.

Lemma fold_samplePixel_total (pixels : list Z) (indices : list nat) (m : ColorMap) :
  Forall (fun e => 1 <= Bucket.count (snd e)) m ->
  totalCount (fold_left (fun m i => samplePixel pixels i m) indices m)
    = totalCount m
      + Z.of_nat (length (filter (fun i => negb (skipped pixels i)) indices)) /\
  Forall (fun e => 1 <= Bucket.count (snd e))
         (fold_left (fun m i => samplePixel pixels i m) indices m).
Proof.
  revert m.
  induction indices as [| i indices IH]; intros m Hpos; cbn [fold_left filter].
  - split; [cbn [length]; lia | exact Hpos].
  - destruct (samplePixel_total pixels i m Hpos) as (Htotal & Hpos' & _).
    destruct (IH _ Hpos') as [IHtotal IHpos].
    split; [| exact IHpos].
    rewrite IHtotal, Htotal.
    destruct (skipped pixels i); cbn [negb length]; lia.
Qed.

Lemma totalCount_length (m : ColorMap) :
  Forall (fun e => 1 <= Bucket.count (snd e)) m -> Z.of_nat (length m) <= totalCount m.
Proof.
  unfold totalCount.
  induction 1 as [| e m He Hm IH]; cbn [length fold_right]; lia.
Qed.

Lemma buckets_at_most_survivors (pixels : list Z) :
  (length (scanPixels pixels) <= survivors pixels)%nat.
Proof.
  rewrite scanPixels_fold. unfold survivors.
  destruct (fold_samplePixel_total pixels (sampledIndices (length pixels)) [])
    as [Htotal Hpos]; [constructor |].
  apply totalCount_length in Hpos. rewrite Htotal in Hpos.
  change (totalCount []) with 0 in Hpos. lia.
Qed.

(** X10.  Every bucket of the map has a count of at least 1, the counts
    add up to the number of sampled pixels that were not skipped, and there
    are no more buckets than such pixels.  This holds for every buffer,
    whatever its length and its bytes. *)
Theorem bucket_counts_add_up (pixels : list Z) :
  Forall (fun e => 1 <= Bucket.count (snd e)) (scanPixels pixels) /\
  totalCount (scanPixels pixels) = Z.of_nat (survivors pixels) /\
  (length (scanPixels pixels) <= survivors pixels)%nat.
Proof.
  rewrite scanPixels_fold. unfold survivors.
  destruct (fold_samplePixel_total pixels (sampledIndices (length pixels)) [])
    as [Htotal Hpos]; [constructor |].
  split; [exact Hpos | split; [exact Htotal |]].
  apply totalCount_length in Hpos. rewrite Htotal in Hpos.
  change (totalCount []) with 0 in Hpos. lia.
Qed.

(** X11.  The extraction returns as many colours as there are buckets, up
    to five: none exactly when every sampled pixel is skipped. *)
Theorem extraction_size (pixels : list Z) :
  length (sortedColors pixels) = Nat.min 5 (length (scanPixels pixels)) /\
  (sortedColors pixels = [] <-> survivors pixels = 0%nat).
Proof.
  assert (Hlen : length (sortedColors pixels) = Nat.min 5 (length (scanPixels pixels))).
  { unfold sortedColors. rewrite encodeTop_unfiltered, length_map.
    unfold topBuckets, slice5, ColorMapOps.values.
    rewrite length_firstn, sort_length, length_map. reflexivity. }
  split; [exact Hlen |].
  rewrite scanPixels_fold in Hlen.
  destruct (fold_samplePixel_total pixels (sampledIndices (length pixels)) [])
    as [Htotal Hpos]; [constructor |].
  pose proof (totalCount_length _ Hpos) as Hle.
  change (totalCount []) with 0 in Htotal. fold (survivors pixels) in Htotal.
  set (m := fold_left (fun m i => samplePixel pixels i m)
                      (sampledIndices (length pixels)) []) in *.
  split.
  - intros Hnil. rewrite Hnil in Hlen. cbn [length] in Hlen.
    destruct m as [| e m']; [| cbn [length] in Hlen; lia].
    change (totalCount []) with 0 in Htotal. lia.
  - intros Hzero. apply length_zero_iff_nil. rewrite Hlen.
    destruct m as [| e m']; [reflexivity |].
    inversion Hpos as [| ? ? He Hm']; subst.
    pose proof (totalCount_length _ Hm') as Hle'.
    unfold totalCount in Htotal, Hle'. cbn [fold_right] in Htotal. lia.
Qed.

(** X12.  An image whose pixels all have an alpha below 128 yields no
    colour, whatever its colour bytes are. *)
Theorem transparent_image_yields_nothing (pixels : list Z) :
  (length pixels mod 4 = 0)%nat ->
  (forall q a, nth_error pixels (4 * q + 3) = Some a -> a < 128) ->
  survivors pixels = 0%nat /\ scanPixels pixels = [] /\ sortedColors pixels = [].
Proof.
  intros Hwhole Halpha.
  assert (Hzero : survivors pixels = 0%nat).
  { unfold survivors. apply length_zero_iff_nil.
    rewrite sampledIndices_stride.
    assert (Hall : forall i, In i (strideIndices (length pixels) 0) ->
                     negb (skipped pixels i) = false).
    { intros i Hi. apply strideIndices_In in Hi as [Hlt Hmod].
      apply negb_false_iff, skipped_iff. left.
      pose proof (Nat.div_mod_eq i 16) as Hd. rewrite Hmod in Hd.
      assert (Hin : (i + 3 < length pixels)%nat).
      { pose proof (Nat.div_mod_eq (length pixels) 4) as Hl. rewrite Hwhole in Hl. lia. }
      apply nth_error_Some in Hin.
      destruct (nth_error pixels (i + 3)) as [a |] eqn:E; [| contradiction].
      exists a. split; [reflexivity |].
      apply (Halpha (4 * (i / 16))%nat).
      rewrite <- E. f_equal. lia. }
    induction (strideIndices (length pixels) 0) as [| i l IH]; [reflexivity |].
    cbn [filter]. rewrite (Hall i (or_introl eq_refl)).
    apply IH. intros j Hj. apply Hall. right. exact Hj. }
  assert (Hscan : scanPixels pixels = []).
  { pose proof (buckets_at_most_survivors pixels) as Hle.
    apply length_zero_iff_nil. lia. }
  split; [exact Hzero | split; [exact Hscan |]].
  unfold sortedColors. rewrite Hscan. reflexivity.
Qed.

(** The witness of X12: two pixels, bright and transparent. *)
Lemma transparent_image_yields_nothing_witness :
  ((length [200; 100; 50; 0; 255; 255; 255; 127]%Z mod 4 = 0)%nat /\
   (forall q a, nth_error [200; 100; 50; 0; 255; 255; 255; 127] (4 * q + 3) = Some a ->
                a < 128)) /\
  sortedColors [200; 100; 50; 0; 255; 255; 255; 127] = [].
Proof.
  assert (Hwhole : (length [200; 100; 50; 0; 255; 255; 255; 127]%Z mod 4 = 0)%nat)
    by reflexivity.
  assert (Halpha : forall q a,
             nth_error [200; 100; 50; 0; 255; 255; 255; 127] (4 * q + 3) = Some a ->
             a < 128).
  { intros [| [| q]] a H.
    - cbn in H. injection H as <-. reflexivity.
    - cbn in H. injection H as <-. reflexivity.
    - exfalso.
      assert (Hout : nth_error [200; 100; 50; 0; 255; 255; 255; 127] (4 * S (S q) + 3) = None)
        by (apply nth_error_None; cbn [length]; lia).
      congruence. }
  split; [exact (conj Hwhole Halpha) |].
  exact (proj2 (proj2 (transparent_image_yields_nothing _ Hwhole Halpha))).
Defined.

(* ================================================================== *)
(** ** More on the quantizer and the encoder *)


(** X14.  Two calls of [rgbToHex] return the same string exactly when the
    three channels, floored and clamped to [0, 255], are the same: colours
    with integer channels in range never collide. *)
Theorem rgbToHex_collides_only_after_clamping (r g b r' g' b' : Q) :
  rgbToHex r g b = rgbToHex r' g' b' <->
  clampChannel r = clampChannel r' /\ clampChannel g = clampChannel g' /\
  clampChannel b = clampChannel b'.
Proof.
  rewrite !rgbToHex_hexPairs. split.
  - intros H.
    apply (f_equal (fun s => match s with
                             | String _ rest => rest
                             | EmptyString => EmptyString
                             end)) in H.
    cbv beta iota in H.
    apply append_inj_length in H as [Hr H]; [| reflexivity].
    apply append_inj_length in H as [Hg Hb]; [| reflexivity].
    apply hexPair_injective in Hr, Hg, Hb; try apply clampChannel_range.
    auto.
  - intros (-> & -> & ->). reflexivity.
Qed.

(* ================================================================== *)
(** ** The dominant colour *)

Lemma scanPixels_get (pixels : list Z) (t : Z * Z * Z) :
  Forall Spec.isByte pixels -> quantizedTriple t ->
  ColorMapOps.get (scanPixels pixels) (tripleKey t) = bucketOf t (frequency pixels t).
Proof.
  intros Hbytes Ht. rewrite scanPixels_fold. unfold frequency.
  apply (fold_samplePixel_get pixels _ [] t 0 Hbytes Ht).
  destruct t as [[r g] b]. reflexivity.
Qed.

Lemma get_In (m : ColorMap) (k : string) (v : Bucket.t) :
  ColorMapOps.get m k = Some v -> In v (ColorMapOps.values m).
Proof.
  unfold ColorMapOps.values.
  induction m as [| [k' v'] m IH]; cbn [ColorMapOps.get map snd In]; [discriminate |].
  destruct (String.eqb k' k).
  - intros E. injection E as ->. now left.
  - intros E. right. exact (IH E).
Qed.

Lemma In_get (m : ColorMap) (k : string) (v : Bucket.t) :
  NoDup (map fst m) -> In (k, v) m -> ColorMapOps.get m k = Some v.
Proof.
  induction m as [| [k' v'] m IH]; cbn [map fst In ColorMapOps.get]; [intros _ [] |].
  intros Hnodup [E | Hin].
  - injection E as -> ->. now rewrite String.eqb_refl.
  - inversion Hnodup as [| ? ? Hnotin Hrest]; subst.
    destruct (String.eqb k' k) eqn:Ek.
    + apply String.eqb_eq in Ek. subst k'.
      exfalso. apply Hnotin. apply (in_map fst) in Hin. exact Hin.
    + exact (IH Hrest Hin).
Qed.

Lemma bucketOf_Some (t : Z * Z * Z) (n : nat) (e : Bucket.t) :
  bucketOf t n = Some e ->
  bucketTriple e = t /\ Bucket.count e = Z.of_nat n /\ (0 < n)%nat.
Proof.
  destruct t as [[r g] b]. destruct n as [| n]; [discriminate |].
  cbn [bucketOf]. intros E. injection E as <-.
  repeat split. lia.
Qed.

(** X15.  When one group holds strictly more of the counted pixels of a
    buffer of bytes than every other group, the first colour the extraction
    returns is the colour of that group. *)
Theorem dominant_color_comes_first (pixels : list Z) (t : Z * Z * Z) :
  Forall Spec.isByte pixels -> quantizedTriple t ->
  (forall s, quantizedTriple s -> s <> t ->
     (frequency pixels s < frequency pixels t)%nat) ->
  hd_error (sortedColors pixels) = Some (tripleHex t).
Proof.
  intros Hbytes Ht Hdom.
  assert (Hq0 : Spec.isQuantized 0) by (split; [lia | reflexivity]).
  assert (Hq20 : Spec.isQuantized 20) by (split; [lia | reflexivity]).
  assert (Hpos : (0 < frequency pixels t)%nat).
  { destruct (tripleEqb (0, 0, 0) t) eqn:E.
    - apply tripleEqb_eq in E. subst t.
      assert (H : (frequency pixels (20, 0, 0)%Z < frequency pixels (0, 0, 0)%Z)%nat)
        by (apply Hdom; [exact (conj Hq20 (conj Hq0 Hq0)) | discriminate]).
      lia.
    - assert (H : (frequency pixels (0, 0, 0)%Z < frequency pixels t)%nat).
      { apply Hdom; [exact (conj Hq0 (conj Hq0 Hq0)) |].
        intros E'. apply tripleEqb_eq in E'. congruence. }
      lia. }
  destruct (scanPixels_ok pixels Hbytes) as [Hnodup Hok].
  pose proof (scanPixels_get pixels t Hbytes Ht) as Hget.
  destruct (bucketOf t (frequency pixels t)) as [own |] eqn:Hown;
    [| apply bucketOf_None in Hown; lia].
  destruct (bucketOf_Some _ _ _ Hown) as (_ & Hown_count & _).
  apply get_In in Hget.
  set (buckets := ColorMapOps.values (scanPixels pixels)) in *.
  assert (Hne : buckets <> []) by (intros E; rewrite E in Hget; exact Hget).
  destruct (topBuckets_head buckets Hne) as [top [Hhd Hmax]].
  assert (Htop_in : In top buckets).
  { unfold topBuckets, slice5 in Hhd.
    apply (Permutation_in _ (sort_perm byCountDesc buckets)).
    destruct (sort byCountDesc buckets) as [| e rest]; [discriminate |].
    cbn [firstn hd_error] in Hhd. injection Hhd as ->. now left. }
  unfold buckets, ColorMapOps.values in Htop_in.
  apply in_map_iff in Htop_in as [[k top'] [Etop Hentry]].
  cbn [snd] in Etop. subst top'.
  rewrite Forall_forall in Hok.
  destruct (Hok _ Hentry) as [Hkey Hquant]. cbn [fst snd] in Hkey, Hquant.
  pose proof (In_get _ _ _ Hnodup Hentry) as Htop_get.
  rewrite Hkey, (scanPixels_get pixels _ Hbytes Hquant) in Htop_get.
  destruct (bucketOf_Some _ _ _ Htop_get) as (_ & Htop_count & _).
  assert (Esame : bucketTriple top = t).
  { destruct (tripleEqb (bucketTriple top) t) eqn:E; [now apply tripleEqb_eq |].
    assert (Hlt : (frequency pixels (bucketTriple top) < frequency pixels t)%nat).
    { apply Hdom; [exact Hquant |].
      intros E'. apply tripleEqb_eq in E'. congruence. }
    specialize (Hmax own Hget). lia. }
  unfold sortedColors. rewrite encodeTop_unfiltered.
  fold buckets.
  destruct (topBuckets buckets) as [| e rest]; [discriminate |].
  cbn [hd_error] in Hhd. injection Hhd as ->.
  cbn [map hd_error]. rewrite <- Esame. reflexivity.
Qed.

(** The witness of X15: three white pixels are sampled and one black one. *)
Lemma dominant_color_comes_first_witness :
  hd_error (sortedColors (concat (repeat [255; 255; 255; 255] 12) ++ [0; 0; 0; 255]))
  = Some "#ffffff"%string.
Proof.
  set (pixels := concat (repeat [255; 255; 255; 255] 12) ++ [0; 0; 0; 255]).
  assert (Hbytes : Forall Spec.isByte pixels)
    by (unfold Spec.isByte; repeat constructor; lia).
  assert (H260 : Spec.isQuantized 260) by (split; [lia | reflexivity]).
  assert (Ht : quantizedTriple (260, 260, 260)) by exact (conj H260 (conj H260 H260)).
  apply (dominant_color_comes_first pixels (260, 260, 260) Hbytes Ht).
  intros s Hs Hne.
  change (frequency pixels (260, 260, 260)) with 3%nat.
  unfold frequency.
  change (sampledIndices (length pixels)) with [0; 16; 32; 48]%nat.
  assert (Hcounted : forall i, In i [0; 16; 32]%nat -> countedIn pixels s i = false).
  { intros i Hi. unfold countedIn.
    assert (Hgroup : groupAt pixels i = Some (260, 260, 260))
      by (destruct Hi as [<- | [<- | [<- | []]]]; reflexivity).
    rewrite Hgroup.
    destruct (tripleEqb (260, 260, 260) s) eqn:E; [| apply andb_false_r].
    apply tripleEqb_eq in E. congruence. }
  cbn [filter].
  rewrite !Hcounted by (cbn [In]; auto).
  destruct (countedIn pixels s 48); cbn [length]; lia.
Defined.

(* ================================================================== *)
(** ** From the extraction to the exported palette *)

(** X16.  [copyColor] writes to the clipboard only a code that
    [isValidHex] accepts, with its [#]; for anything else it writes nothing
    and shows no toast. *)
Theorem copyColor_writes_only_valid_codes (color : option string) :
  (forall text, clipboard (copyColor color) = Some text ->
     isValidHex text = true /\ String.prefix "#" text = true /\
     normalizeHex color = text /\ toastTitle (copyColor color) = Some "Copied!"%string) /\
  (clipboard (copyColor color) = None ->
     normalizeHex color = EmptyString /\ toastTitle (copyColor color) = None) /\
  setColors (copyColor color) = None.
Proof.
  unfold copyColor.
  destruct (String.eqb (normalizeHex color) EmptyString) eqn:E; cbn [clipboard toastTitle setColors].
  - apply String.eqb_eq in E.
    split; [intros text H; discriminate | split; [auto | reflexivity]].
  - apply String.eqb_neq in E.
    split; [| split; [intros H; discriminate | reflexivity]].
    intros text H. injection H as <-.
    destruct color as [text |]; [| contradiction].
    rewrite normalizeHex_Some in *.
    destruct (isValidHex text) eqn:V; [| contradiction].
    rewrite isValidHex_withHash, V, withHash_prefix. auto.
Qed.

Lemma findIndex_app {A : Type} (p : A -> bool) (l1 l2 : list A) :
  Forall (fun x => p x = false) l1 ->
  findIndex p (l1 ++ l2) = option_map (Nat.add (length l1)) (findIndex p l2).
Proof.
  induction 1 as [| x l1 Hx Hl1 IH]; cbn [app findIndex length].
  - destruct (findIndex p l2); reflexivity.
  - rewrite Hx, IH. destruct (findIndex p l2); reflexivity.
Qed.

Lemma arrayStore_middle (l1 l2 : Colors) (old : option string) (value : string) :
  arrayStore (l1 ++ old :: l2) (length l1) value = l1 ++ Some value :: l2.
Proof.
  unfold arrayStore.
  replace (length l1 <? length (l1 ++ old :: l2))%nat with true
    by (symmetry; apply Nat.ltb_lt; rewrite length_app; cbn [length]; lia).
  rewrite firstn_app, firstn_all, Nat.sub_diag. cbn [firstn]. rewrite app_nil_r.
  f_equal. f_equal.
  replace (S (length l1)) with (length l1 + 1)%nat by lia.
  rewrite skipn_app, skipn_all2 by lia.
  replace (length l1 + 1 - length l1)%nat with 1%nat by lia.
  reflexivity.
Qed.

Lemma addOneByOne_fills (filled codes : list string) (free : nat) :
  Forall (fun s => s <> EmptyString) filled ->
  Forall (fun s => s <> EmptyString) codes ->
  (length codes <= free)%nat ->
  addOneByOne (map Some filled ++ repeat (Some EmptyString) free) codes
  = map Some (filled ++ codes) ++ repeat (Some EmptyString) (free - length codes).
Proof.
  unfold addOneByOne. intros Hfilled Hcodes. revert filled free Hfilled.
  induction Hcodes as [| code codes Hcode Hcodes IH]; intros filled free Hfilled Hfree.
  - cbn [fold_left length]. now rewrite app_nil_r, Nat.sub_0_r.
  - cbn [length] in Hfree. destruct free as [| free]; [lia |].
    cbn [fold_left repeat].
    assert (Hstep : commit (map Some filled ++ Some EmptyString :: repeat (Some EmptyString) free)
                      (addExtractedColor
                         (map Some filled ++ Some EmptyString :: repeat (Some EmptyString) free)
                         code None)
                    = map Some (filled ++ [code]) ++ repeat (Some EmptyString) free).
    { unfold addExtractedColor. rewrite findIndex_app.
      - cbn [findIndex isFalsy String.eqb option_map].
        unfold commit. cbn [setColors].
        rewrite Nat.add_0_r, arrayStore_middle, map_app, <- app_assoc. reflexivity.
      - apply Forall_map. eapply Forall_impl; [| exact Hfilled].
        intros s Hs. cbn [isFalsy]. now apply String.eqb_neq. }
    rewrite Hstep, IH.
    + rewrite <- app_assoc. cbn [app length]. reflexivity.
    + apply Forall_app. split; [exact Hfilled | constructor; [exact Hcode | constructor]].
    + lia.
Qed.

Lemma exportPalette_app (a b : Colors) :
  exportPalette (a ++ b) = exportPalette a ++ exportPalette b.
Proof. unfold exportPalette. now rewrite filter_app, map_app. Qed.

Lemma exportPalette_empty_slots (n : nat) :
  exportPalette (repeat (Some EmptyString) n) = [].
Proof. induction n as [| n IH]; [reflexivity | exact IH]. Qed.

(** X17.  Pressing "Add" for each extracted colour in turn, on the initial
    palette, puts the colours into the first slots in their order, and the
    export of that palette is the list of the extracted colours. *)
Theorem adding_extracted_colors_one_by_one (pixels : list Z) :
  addOneByOne emptyPalette (sortedColors pixels)
    = map Some (sortedColors pixels)
      ++ repeat (Some EmptyString) (10 - length (sortedColors pixels)) /\
  exportPalette (addOneByOne emptyPalette (sortedColors pixels)) = sortedColors pixels.
Proof.
  assert (Hfill : addOneByOne emptyPalette (sortedColors pixels)
                  = map Some (sortedColors pixels)
                    ++ repeat (Some EmptyString) (10 - length (sortedColors pixels))).
  { apply (addOneByOne_fills [] (sortedColors pixels) 10).
    - constructor.
    - eapply Forall_impl; [| apply encodeTop_hex].
      intros s Hs E. rewrite E in Hs. discriminate.
    - pose proof (encodeTop_length (scanPixels pixels)) as Hlen.
      unfold Spec.topK in Hlen. unfold sortedColors. lia. }
  split; [exact Hfill |].
  rewrite Hfill, exportPalette_app, exportPalette_empty_slots, app_nil_r.
  apply exportPalette_fixed, encodeTop_hex.
Qed.
